(** * Style parser of umbraco-rich-text: [src/rich-text/parse-style.ts]

    A shallow embedding of [toCamelCase] and [parseStyle], together with the
    process-wide [styleCache], and the properties of the style parser.

    - A JavaScript string is the list of its UTF-16 code units.
    - The object [styleProps] is used as a dictionary from property names to
      values: a [gmap].  Assignment [styleProps[p] = v] is [obj_set].
    - [styleCache] is a JavaScript [Map]: an association list kept in
      insertion order, threaded through [parseStyle] as explicit state.
    - A method call on [undefined] raises a [TypeError]; computations that
      may raise live in [Result]. *)

From Stdlib Require Import NArith String Ascii.
From stdpp Require Import gmap list.

Local Open Scope N_scope.

(** ** JavaScript strings *)

Abbreviation jsstring := (list N) (only parsing).

(** The string literal [s] as a JavaScript string (one code unit per
    character of the literal). *)
Definition js (s : string) : jsstring :=
  List.map N_of_ascii (list_ascii_of_string s).

Definition SEMICOLON : N := 59.
Definition COLON : N := 58.
Definition HYPHEN : N := 45.

(** [WhiteSpace] and [LineTerminator] code units, the ones removed by
    [String.prototype.trim]. *)
Definition is_whitespace (c : N) : bool :=
  (9 <=? c) && (c <=? 13)
  || (c =? 32) || (c =? 160) || (c =? 5760)
  || (8192 <=? c) && (c <=? 8202)
  || (c =? 8232) || (c =? 8233) || (c =? 8239) || (c =? 8287)
  || (c =? 12288) || (c =? 65279).

Fixpoint trimStart (s : jsstring) : jsstring :=
  match s with
  | [] => []
  | c :: t => if is_whitespace c then trimStart t else s
  end.

Definition trimEnd (s : jsstring) : jsstring :=
  rev (trimStart (rev s)).

(** [s.trim()] *)
Definition trim (s : jsstring) : jsstring := trimEnd (trimStart s).

(** [s.split(sep)] for a separator of one code unit.  The result is never
    empty: a string without separator is its own single piece. *)
Fixpoint split (sep : N) (s : jsstring) : list jsstring :=
  match s with
  | [] => [[]]
  | c :: t =>
      if c =? sep then [] :: split sep t
      else match split sep t with
           | piece :: pieces => (c :: piece) :: pieces
           | [] => [[c]]
           end
  end.

(** [s.startsWith(p)] *)
Fixpoint startsWith (p s : jsstring) : bool :=
  match p, s with
  | [], _ => true
  | _ :: _, [] => false
  | a :: p', b :: s' => (a =? b) && startsWith p' s'
  end.

(** ** [toCamelCase] *)

(** The character class [[a-z]]. *)
Definition is_lower (c : N) : bool := (97 <=? c) && (c <=? 122).

(** [c.toUpperCase()] on a code unit matched by [[a-z]]. *)
Definition toUpperCase (c : N) : N := c - 32.

(** [value.replace(/-([a-z])/g, g => g[1].toUpperCase())]: the string is
    scanned from the left; a hyphen followed by a lower-case letter is
    replaced by the upper-case letter and the scan resumes after the
    letter; any other code unit is copied. *)
Fixpoint toCamelCase (value : jsstring) : jsstring :=
  match value with
  | [] => []
  | c :: t =>
      match t with
      | x :: t' =>
          if (c =? HYPHEN) && is_lower x
          then toUpperCase x :: toCamelCase t'
          else c :: toCamelCase t
      | [] => [c]
      end
  end.

(** ** Results and exceptions *)

Inductive Exn := TypeError.

Inductive Result (A : Type) :=
| Ok (a : A)
| Throw (e : Exn).
Arguments Ok {A} a.
Arguments Throw {A} e.

Definition Result_bind {A B} (r : Result A) (k : A -> Result B) : Result B :=
  match r with
  | Ok a => k a
  | Throw e => Throw e
  end.

(** A value of type [string | undefined]. *)
Abbreviation maybe_string := (option (list N)) (only parsing).

(** [!x] for [x : string | undefined]. *)
Definition falsy (x : maybe_string) : bool :=
  match x with
  | None | Some [] => true
  | Some (_ :: _) => false
  end.

(** [x === undefined] *)
Definition is_undefined (x : maybe_string) : bool :=
  match x with None => true | Some _ => false end.

(** [x.trim()] for [x : string | undefined]: a [TypeError] on [undefined]. *)
Definition method_trim (x : maybe_string) : Result jsstring :=
  match x with
  | Some s => Ok (trim s)
  | None => Throw TypeError
  end.

(** ** The object [styleProps] *)

Abbreviation StyleMap := (gmap (list N) (list N)) (only parsing).

Definition PROTO : jsstring := js "__proto__".

(** [o[p] = v] on an ordinary object [o] whose prototype is
    [Object.prototype], for a string [v].  The key [__proto__] is the
    accessor of [Object.prototype]: its setter ignores a value that is
    neither an object nor [null], so no own property is created.  Every
    other key becomes (or updates) an own data property. *)
Definition obj_set (o : StyleMap) (p v : jsstring) : StyleMap :=
  if decide (p = PROTO) then o else <[p:=v]> o.

(** ** The loop of [parseStyle] *)

(** One iteration of [for (const el of styleElements)]. *)
Definition styleElement (el : jsstring) (styleProps : StyleMap)
  : Result StyleMap :=
  let parts := split COLON el in
  let property := parts !! 0%nat in
  let value := parts !! 1%nat in
  if falsy property || is_undefined value then Ok styleProps
  else
    Result_bind (method_trim property) (fun property =>
    let property :=
      if negb (startsWith (js "--") property)
      then toCamelCase property else property in
    Result_bind (method_trim value) (fun v =>
    Ok (obj_set styleProps property v))).

Fixpoint styleLoop (styleElements : list jsstring) (styleProps : StyleMap)
  : Result StyleMap :=
  match styleElements with
  | [] => Ok styleProps
  | el :: els =>
      Result_bind (styleElement el styleProps) (styleLoop els)
  end.

(** ** The cache [styleCache : Map<string, CSSProperties>] *)

Definition MAX_STYLE_CACHE_ENTRIES : nat := 200.

(** Entries in insertion order, oldest first. *)
Abbreviation Cache := (list (list N * gmap (list N) (list N))) (only parsing).

Fixpoint Map_get (k : jsstring) (m : Cache) : option StyleMap :=
  match m with
  | [] => None
  | (k', v) :: m' => if decide (k = k') then Some v else Map_get k m'
  end.

Definition Map_size (m : Cache) : nat := length m.

(** [m.keys().next().value] *)
Definition Map_firstKey (m : Cache) : option jsstring :=
  match m with
  | [] => None
  | (k, _) :: _ => Some k
  end.

Definition Map_delete (k : jsstring) (m : Cache) : Cache :=
  List.filter (fun e => negb (bool_decide (e.1 = k))) m.

(** [m.set(k, v)]: an existing key keeps its position, a new key is
    appended. *)
Fixpoint Map_set (k : jsstring) (v : StyleMap) (m : Cache) : Cache :=
  match m with
  | [] => [(k, v)]
  | (k', v') :: m' =>
      if decide (k = k') then (k, v) :: m' else (k', v') :: Map_set k v m'
  end.

(** ** [parseStyle] *)

(** A computation on the cache that may raise. *)
Definition M (A : Type) : Type := Cache -> Result (A * Cache).

Definition ret {A} (a : A) : M A := fun c => Ok (a, c).

Definition bind {A B} (m : M A) (k : A -> M B) : M B :=
  fun c =>
    match m c with
    | Ok (a, c') => k a c'
    | Throw e => Throw e
    end.

Definition lift {A} (r : Result A) : M A :=
  fun c => match r with Ok a => Ok (a, c) | Throw e => Throw e end.

Definition cache_get (k : jsstring) : M (option StyleMap) :=
  fun c => Ok (Map_get k c, c).
Definition cache_size : M nat := fun c => Ok (Map_size c, c).
Definition cache_firstKey : M (option jsstring) :=
  fun c => Ok (Map_firstKey c, c).
Definition cache_delete (k : jsstring) : M unit :=
  fun c => Ok (tt, Map_delete k c).
Definition cache_set (k : jsstring) (v : StyleMap) : M unit :=
  fun c => Ok (tt, Map_set k v c).

Notation "'let*' x := m 'in' k" := (bind m (fun x => k))
  (at level 10, x pattern, m at level 100, k at level 200).

Definition parseStyle (style : jsstring) : M StyleMap :=
  let normalizedStyle := trim style in
  if falsy (Some normalizedStyle) then ret ∅
  else
    let* cached := cache_get normalizedStyle in
    match cached with
    | Some o => ret o
    | None =>
        let* parsed := lift (styleLoop (split SEMICOLON normalizedStyle) ∅) in
        let* size := cache_size in
        let* _ :=
          if (MAX_STYLE_CACHE_ENTRIES <=? size)%nat then
            let* firstKey := cache_firstKey in
            match firstKey with
            | Some k => cache_delete k
            | None => ret tt
            end
          else ret tt in
        let* _ := cache_set normalizedStyle parsed in
        ret parsed
    end.

(** The parsing algorithm alone: [parseStyle] without the lines that read
    and write [styleCache]. *)
Definition parseStyle_uncached (style : jsstring) : Result StyleMap :=
  let normalizedStyle := trim style in
  if falsy (Some normalizedStyle) then Ok ∅
  else styleLoop (split SEMICOLON normalizedStyle) ∅.

(** Successive calls of [parseStyle], results discarded. *)
Fixpoint parseStyle_calls (styles : list jsstring) : M unit :=
  match styles with
  | [] => ret tt
  | s :: rest => let* _ := parseStyle s in parseStyle_calls rest
  end.

(** The cache states of a running process: [styleCache] starts empty and
    changes only through calls of [parseStyle]. *)
Inductive reachable : Cache -> Prop :=
| reachable_init : reachable []
| reachable_call c style o c' :
    reachable c -> parseStyle style c = Ok (o, c') -> reachable c'.

(** ** What a declaration contributes

    [declaration el] is the assignment that the loop body performs for the
    candidate declaration [el], if any.  It is a reading aid for the
    statements below; [styleElement_declaration] relates it to the loop
    body of the source. *)

Definition propertyName (property : jsstring) : jsstring :=
  if startsWith (js "--") property then property else toCamelCase property.

Definition declaration (el : jsstring) : option (jsstring * jsstring) :=
  match split COLON el with
  | (_ :: _) as property :: value :: _ =>
      Some (propertyName (trim property), trim value)
  | _ => None
  end.

Definition assign (o : StyleMap) (d : jsstring * jsstring) : StyleMap :=
  obj_set o d.1 d.2.

(** The object built by the loop for the normalized string [n]. *)
Definition styleOf (n : jsstring) : StyleMap :=
  foldl assign ∅ (omap declaration (split SEMICOLON n)).

(** The eviction step in front of [styleCache.set]. *)
Definition evict (c : Cache) : Cache :=
  if (MAX_STYLE_CACHE_ENTRIES <=? Map_size c)%nat then
    match Map_firstKey c with
    | Some k => Map_delete k c
    | None => c
    end
  else c.

(** The result and the next cache of a call, as a total function. *)
Definition parseStyle_total (style : jsstring) (c : Cache)
  : StyleMap * Cache :=
  let n := trim style in
  match n with
  | [] => (∅, c)
  | _ :: _ =>
      match Map_get n c with
      | Some o => (o, c)
      | None => (styleOf n, Map_set n (styleOf n) (evict c))
      end
  end.

(** The cache after the calls [hist], as a total function. *)
Definition calls_total (hist : list jsstring) (c : Cache) : Cache :=
  foldl (fun c style => (parseStyle_total style c).2) c hist.

(** The cache entry that a call on [style] inserts. *)
Definition entry (style : jsstring) : jsstring * StyleMap :=
  (trim style, styleOf (trim style)).

(** Whether a call on [style] inserts into the cache [c]. *)
Definition is_miss (style : jsstring) (c : Cache) : bool :=
  match trim style with
  | [] => false
  | _ :: _ => match Map_get (trim style) c with
              | Some _ => false
              | None => true
              end
  end.

(** The keys inserted by the calls [hist] started on the cache [c], in the
    order of their insertion (a key inserted again after its eviction
    occurs again). *)
Fixpoint insertions (hist : list jsstring) (c : Cache) : list jsstring :=
  match hist with
  | [] => []
  | style :: rest =>
      (if is_miss style c then [trim style] else [])
        ++ insertions rest (parseStyle_total style c).2
  end.

(** A family of pairwise distinct style strings, used to fill the cache. *)
Definition numbered_style (i : nat) : jsstring :=
  js "--n: " ++ [256 + N.of_nat i].

(** The character class [[A-Z]]. *)
Definition is_upper (c : N) : bool := (65 <=? c) && (c <=? 90).

(** Whether [/-[a-z]/] matches somewhere in [s]. *)
Fixpoint has_kebab (s : jsstring) : bool :=
  match s with
  | [] => false
  | c :: t =>
      (c =? HYPHEN) && match t with x :: _ => is_lower x | [] => false end
      || has_kebab t
  end.

(** A string that does not start, respectively end, with white space. *)
Definition starts_trimmed (s : jsstring) : bool :=
  match s with
  | [] => true
  | c :: _ => negb (is_whitespace c)
  end.

Definition ends_trimmed (s : jsstring) : bool := starts_trimmed (rev s).

(** [ws] appended to the last piece of [ps]. *)
Fixpoint app_last (ps : list jsstring) (ws : jsstring) : list jsstring :=
  match ps with
  | [] => []
  | p :: ps' =>
      match ps' with
      | [] => [p ++ ws]
      | _ :: _ => p :: app_last ps' ws
      end
  end.

(** The invariant of [styleCache]. *)
Definition cache_ok (c : Cache) : Prop :=
  NoDup c.*1 /\
  (length c <= MAX_STYLE_CACHE_ENTRIES)%nat /\
  Forall (fun e => e.1 <> [] /\ e.2 = styleOf e.1) c.

(** * Properties *)

(** ** Strings *)

Section Strings.

Implicit Types (s a b : list N) (sep c : N).

Lemma trimStart_blank s :
  forallb is_whitespace s = true -> trimStart s = [].
Proof.
  induction s as [|c s IH]; simpl; [done|].
  intros [Hc Hs]%andb_prop. rewrite Hc. auto.
Qed.

Lemma trim_blank s : forallb is_whitespace s = true -> trim s = [].
Proof.
  intros H. unfold trim, trimEnd. by rewrite (trimStart_blank s H).
Qed.

Lemma split_nonempty sep s : split sep s <> [].
Proof.
  destruct s as [|c s]; simpl; [done|].
  destruct (c =? sep); [done|]. by destruct (split sep s).
Qed.

Lemma split_no_sep sep s : sep ∉ s -> split sep s = [s].
Proof.
  induction s as [|c s IH]; simpl; [done|].
  intros Hn. apply not_elem_of_cons in Hn as [Hc Hs].
  destruct (N.eqb_spec c sep) as [->|_]; [done|].
  by rewrite (IH Hs).
Qed.

Lemma split_app_sep sep a b :
  sep ∉ a -> split sep (a ++ sep :: b) = a :: split sep b.
Proof.
  induction a as [|c a IH]; simpl.
  - intros _. by rewrite N.eqb_refl.
  - intros Hn. apply not_elem_of_cons in Hn as [Hc Ha].
    destruct (N.eqb_spec c sep) as [->|_]; [done|].
    by rewrite (IH Ha).
Qed.

(** A string either has no separator or decomposes at its first one. *)
Lemma first_separator sep s :
  sep ∉ s \/ exists a b, s = a ++ sep :: b /\ sep ∉ a.
Proof.
  induction s as [|c s IH].
  - left. apply not_elem_of_nil.
  - destruct (decide (c = sep)) as [->|Hc].
    + right. exists [], s. split; [done | apply not_elem_of_nil].
    + destruct IH as [Hs | (a & b & -> & Ha)].
      * left. by apply not_elem_of_cons.
      * right. exists (c :: a), b. split; [done|]. by apply not_elem_of_cons.
Qed.

End Strings.

(** ** [toCamelCase] *)

Section CamelCase.

Lemma toUpperCase_lower x :
  is_lower x = true ->
  65 <= toUpperCase x <= 90 /\ toUpperCase x + 32 = x.
Proof.
  unfold is_lower, toUpperCase. intros [H1 H2]%andb_prop.
  apply N.leb_le in H1, H2. lia.
Qed.

Lemma toCamelCase_cons c t :
  toCamelCase (c :: t) =
  match t with
  | x :: t' =>
      if (c =? HYPHEN) && is_lower x
      then toUpperCase x :: toCamelCase t'
      else c :: toCamelCase t
  | [] => [c]
  end.
Proof. done. Qed.

(** A hyphen followed by a lower-case letter is replaced, wherever it
    stands in the string. *)
Lemma toCamelCase_hyphen_lower (a b : list N) (x : N) :
  is_lower x = true ->
  toCamelCase (a ++ HYPHEN :: x :: b) =
  toCamelCase a ++ toUpperCase x :: toCamelCase b.
Proof.
  intros Hx. remember (length a) as n eqn:Hn.
  revert a Hn. induction n as [n IH] using lt_wf_ind. intros a Hn.
  destruct a as [|c [|y a]].
  - simpl. by rewrite Hx.
  - change ([c] ++ HYPHEN :: x :: b) with (c :: HYPHEN :: x :: b).
    rewrite toCamelCase_cons.
    replace (is_lower HYPHEN) with false by done.
    rewrite andb_false_r. cbv iota.
    rewrite (toCamelCase_cons HYPHEN). simpl andb. by rewrite Hx.
  - change ((c :: y :: a) ++ HYPHEN :: x :: b)
      with (c :: y :: (a ++ HYPHEN :: x :: b)).
    rewrite toCamelCase_cons, (toCamelCase_cons c (y :: a)).
    destruct ((c =? HYPHEN) && is_lower y).
    + rewrite (IH (length a)); [done | simpl in Hn; lia | done].
    + change (y :: a ++ HYPHEN :: x :: b) with ((y :: a) ++ HYPHEN :: x :: b).
      rewrite (IH (length (y :: a))); [done | simpl in *; lia | done].
Qed.

(** A string without any hyphen is left as it is. *)
Lemma toCamelCase_no_hyphen (s : list N) :
  HYPHEN ∉ s -> toCamelCase s = s.
Proof.
  induction s as [|c s IH]; [done|].
  intros [Hc Hs]%not_elem_of_cons.
  rewrite toCamelCase_cons. destruct s as [|x s]; [done|].
  destruct (N.eqb_spec c HYPHEN) as [->|_]; [done|].
  simpl andb. cbv iota. by rewrite (IH Hs).
Qed.

End CamelCase.

(** ** The loop *)

Section Loop.

Implicit Types (o : gmap (list N) (list N)) (el : list N).

Lemma styleElement_declaration el o :
  styleElement el o =
  Ok (match declaration el with Some d => assign o d | None => o end).
Proof.
  unfold styleElement, declaration.
  destruct (split COLON el) as [|[|c property] [|value rest]]; try done.
  cbv [lookup list_lookup falsy is_undefined orb method_trim Result_bind
       assign propertyName fst snd].
  by destruct (startsWith (js "--") (trim (c :: property))).
Qed.

Lemma styleLoop_declarations (els : list (list N)) o :
  styleLoop els o = Ok (foldl assign o (omap declaration els)).
Proof.
  revert o. induction els as [|el els IH]; intros o; simpl; [done|].
  rewrite styleElement_declaration. simpl.
  rewrite IH. by destruct (declaration el).
Qed.

Lemma parseStyle_uncached_total (style : list N) :
  parseStyle_uncached style = Ok (styleOf (trim style)).
Proof.
  unfold parseStyle_uncached. destruct (trim style) eqn:E; simpl.
  - done.
  - apply styleLoop_declarations.
Qed.

Lemma declaration_pieces el (property value : list N) rest :
  split COLON el = property :: value :: rest -> property <> [] ->
  declaration el = Some (propertyName (trim property), trim value).
Proof.
  unfold declaration. intros -> Hp. destruct property; [by destruct Hp | done].
Qed.

Lemma declaration_no_colon el : COLON ∉ el -> declaration el = None.
Proof.
  intros H. unfold declaration. rewrite (split_no_sep _ _ H). by destruct el.
Qed.

Lemma declaration_no_property (rest : list N) :
  declaration (COLON :: rest) = None.
Proof. done. Qed.

End Loop.

(** ** The cache *)

Section CacheLemmas.

Implicit Types (c m : list (list N * gmap (list N) (list N))).
Implicit Types (k n style : list N) (v o : gmap (list N) (list N)).

Lemma Map_get_None k m : Map_get k m = None <-> k ∉ m.*1.
Proof.
  induction m as [|[k' v'] m IH]; simpl.
  - split; [intros _; apply not_elem_of_nil | done].
  - rewrite not_elem_of_cons. destruct (decide (k = k')) as [->|Hne].
    + split; [done | by intros [? _]].
    + rewrite IH. tauto.
Qed.

Lemma Map_get_Some k v m : Map_get k m = Some v -> (k, v) ∈ m.
Proof.
  induction m as [|[k' v'] m IH]; simpl; [done|].
  destruct (decide (k = k')) as [->|Hne].
  - intros [= ->]. apply list_elem_of_here.
  - intros H. apply list_elem_of_further. auto.
Qed.

Lemma Map_set_fresh k v m : k ∉ m.*1 -> Map_set k v m = m ++ [(k, v)].
Proof.
  induction m as [|[k' v'] m IH]; simpl; [done|].
  intros [Hne Hm]%not_elem_of_cons.
  destruct (decide (k = k')); [done|]. by rewrite (IH Hm).
Qed.

Lemma Map_delete_absent k m : k ∉ m.*1 -> Map_delete k m = m.
Proof.
  unfold Map_delete. induction m as [|[k' v'] m IH]; simpl; [done|].
  intros [Hne Hm]%not_elem_of_cons.
  rewrite bool_decide_eq_false_2 by congruence. simpl. by rewrite (IH Hm).
Qed.

Lemma Map_delete_first k v m :
  k ∉ m.*1 -> Map_delete k ((k, v) :: m) = m.
Proof.
  intros Hm. unfold Map_delete. simpl.
  rewrite bool_decide_eq_true_2 by done. simpl.
  by apply Map_delete_absent.
Qed.

Lemma evict_not_full c :
  (length c < MAX_STYLE_CACHE_ENTRIES)%nat -> evict c = c.
Proof.
  intros H. unfold evict, Map_size.
  destruct (Nat.leb_spec MAX_STYLE_CACHE_ENTRIES (length c)); [lia | done].
Qed.

Lemma evict_full c :
  NoDup c.*1 -> length c = MAX_STYLE_CACHE_ENTRIES -> evict c = tail c.
Proof.
  intros Hnd Hlen. unfold evict, Map_size.
  destruct (Nat.leb_spec MAX_STYLE_CACHE_ENTRIES (length c)); [|lia].
  destruct c as [|[k v] c]; [done|]. simpl.
  apply Map_delete_first. by inversion Hnd.
Qed.

(** [parseStyle] never raises: it is the total function
    [parseStyle_total]. *)
Lemma parseStyle_Ok style c :
  parseStyle style c = Ok (parseStyle_total style c).
Proof.
  unfold parseStyle, parseStyle_total.
  destruct (trim style) as [|ch n] eqn:E; [done|].
  cbv [falsy bind cache_get].
  destruct (Map_get (ch :: n) c) as [o|]; [done|].
  cbv [lift]. rewrite styleLoop_declarations. fold (styleOf (ch :: n)).
  cbv [cache_size bind ret evict cache_firstKey cache_delete cache_set].
  destruct (MAX_STYLE_CACHE_ENTRIES <=? Map_size c)%nat;
    [destruct (Map_firstKey c)|]; done.
Qed.

(** The cache after a call. *)
Lemma parseStyle_total_cache style c :
  cache_ok c ->
  (parseStyle_total style c).2 =
  if decide (trim style = [] \/ trim style ∈ c.*1) then c
  else (if decide (length c = MAX_STYLE_CACHE_ENTRIES) then tail c else c)
         ++ [(trim style, styleOf (trim style))].
Proof.
  intros (Hnd & Hlen & Hall). unfold parseStyle_total.
  destruct (trim style) as [|ch n] eqn:E.
  { rewrite decide_True by (by left). done. }
  destruct (Map_get (ch :: n) c) as [o|] eqn:G.
  - rewrite decide_True; [done|]. right.
    apply Map_get_Some in G. apply list_elem_of_fmap. by exists (ch :: n, o).
  - apply Map_get_None in G.
    rewrite decide_False by (intros [?|?]; done). simpl.
    case_decide as Hfull.
    + rewrite (evict_full c Hnd Hfull). apply Map_set_fresh.
      intros Hin. apply G. destruct c as [|e c]; [done|].
      simpl in *. by apply list_elem_of_further.
    + rewrite evict_not_full by lia. by apply Map_set_fresh.
Qed.

(** The result of a call on a cache that satisfies the invariant. *)
Lemma parseStyle_total_result style c :
  cache_ok c -> (parseStyle_total style c).1 = styleOf (trim style).
Proof.
  intros (Hnd & Hlen & Hall). unfold parseStyle_total.
  destruct (trim style) as [|ch n] eqn:E; [done|].
  destruct (Map_get (ch :: n) c) as [o|] eqn:G; [|done].
  apply Map_get_Some in G. rewrite Forall_forall in Hall.
  by destruct (Hall _ G) as [_ Ho].
Qed.

Lemma parseStyle_total_ok style c :
  cache_ok c -> cache_ok (parseStyle_total style c).2.
Proof.
  intros Hok. rewrite (parseStyle_total_cache style c Hok).
  destruct Hok as (Hnd & Hlen & Hall).
  case_decide as Hhit; [done|].
  assert (trim style <> [] /\ trim style ∉ c.*1) as [Hne Hfresh] by tauto.
  set (c0 := if decide (length c = MAX_STYLE_CACHE_ENTRIES)
             then tail c else c).
  assert (c0 ⊆ c) as Hsub.
  { subst c0. case_decide; [|done]. destruct c as [|e c]; [done|].
    simpl. intros x Hx. by apply list_elem_of_further. }
  assert (NoDup c0.*1) as Hnd0.
  { subst c0. case_decide; [|done]. destruct c as [|e c]; [done|].
    simpl in *. by inversion Hnd. }
  assert (length c0 < MAX_STYLE_CACHE_ENTRIES)%nat as Hlen0.
  { subst c0. case_decide as Hfull; [|lia]. destruct c as [|e c]; simpl in *.
    - unfold MAX_STYLE_CACHE_ENTRIES in *. lia.
    - lia. }
  split_and!.
  - rewrite fmap_app. apply NoDup_app. split_and!; [done| |].
    + intros k Hk. simpl. rewrite list_elem_of_singleton. intros ->.
      apply Hfresh. apply list_elem_of_fmap in Hk as (e & -> & He).
      apply list_elem_of_fmap. exists e. auto.
    + simpl. apply NoDup_singleton.
  - rewrite length_app. simpl. lia.
  - apply Forall_app. split.
    + rewrite Forall_forall in Hall |- *. auto.
    + by repeat constructor.
Qed.

Lemma reachable_ok c : reachable c -> cache_ok c.
Proof.
  induction 1 as [|c style o c' _ IH Hcall].
  - split_and!; [constructor | simpl; lia | constructor].
  - rewrite parseStyle_Ok in Hcall. injection Hcall as Hcall.
    replace c' with (parseStyle_total style c).2 by by rewrite Hcall.
    by apply parseStyle_total_ok.
Qed.

(** Every call returns, with the object that the loop builds for the
    trimmed input. *)
Lemma parseStyle_reachable style c :
  reachable c ->
  parseStyle style c =
  Ok (styleOf (trim style), (parseStyle_total style c).2).
Proof.
  intros Hc%reachable_ok. rewrite parseStyle_Ok.
  rewrite <- (parseStyle_total_result style c Hc).
  by destruct (parseStyle_total style c).
Qed.

End CacheLemmas.

(** ** Sequences of calls *)

Section Calls.

Implicit Types (c : list (list N * gmap (list N) (list N))).
Implicit Types (hist : list (list N)).

Lemma parseStyle_calls_Ok hist c :
  parseStyle_calls hist c = Ok (tt, calls_total hist c).
Proof.
  revert c. induction hist as [|s hist IH]; intros c; simpl; [done|].
  unfold bind. rewrite parseStyle_Ok.
  destruct (parseStyle_total s c) as [o c1]. apply IH.
Qed.

Lemma reachable_calls_total hist c :
  reachable c -> reachable (calls_total hist c).
Proof.
  revert c. induction hist as [|s hist IH]; intros c Hc; simpl; [done|].
  apply IH.
  apply (reachable_call c s (parseStyle_total s c).1 _ Hc).
  rewrite parseStyle_Ok. by destruct (parseStyle_total s c).
Qed.

Lemma reachable_calls hist c :
  parseStyle_calls hist [] = Ok (tt, c) -> reachable c.
Proof.
  rewrite parseStyle_calls_Ok. intros [= <-].
  apply reachable_calls_total, reachable_init.
Qed.

(** Distinct, non-blank inputs that fit are appended in call order. *)
Lemma calls_total_distinct hist c :
  cache_ok c ->
  NoDup (c.*1 ++ (trim <$> hist)) ->
  [] ∉ trim <$> hist ->
  (length c + length hist <= MAX_STYLE_CACHE_ENTRIES)%nat ->
  calls_total hist c = c ++ (entry <$> hist).
Proof.
  revert c. induction hist as [|s hist IH]; intros c Hok Hnd Hnb Hlen; simpl.
  { by rewrite app_nil_r. }
  simpl in Hnd, Hnb, Hlen.
  apply not_elem_of_cons in Hnb as [Hs Hnb].
  apply NoDup_app in Hnd as (Hc & Hdisj & Hrest).
  apply NoDup_cons in Hrest as [Hs' Hrest].
  assert (trim s ∉ c.*1) as Hfresh.
  { intros Hin. apply (Hdisj _ Hin). apply list_elem_of_here. }
  assert ((parseStyle_total s c).2 = c ++ [entry s]) as Hstep.
  { rewrite (parseStyle_total_cache s c Hok).
    rewrite decide_False by (intros [?|?]; done).
    by rewrite decide_False by lia. }
  pose proof (parseStyle_total_ok s c Hok) as Hok'.
  rewrite Hstep in Hok' |- *.
  rewrite IH; [by rewrite <- app_assoc | done | | done |].
  - rewrite fmap_app. simpl. rewrite <- app_assoc. simpl.
    apply NoDup_app. split_and!; [done| |by apply NoDup_cons].
    intros k Hk [->|Hin]%elem_of_cons; [done|]. by apply (Hdisj k Hk), list_elem_of_further.
  - rewrite length_app. simpl. lia.
Qed.

(** Calls that hit the cache, or whose input is blank, leave it as it
    is: neither the content nor the order of the entries changes. *)
Lemma calls_total_hits hist c :
  cache_ok c ->
  (forall s, s ∈ hist -> trim s = [] \/ trim s ∈ c.*1) ->
  calls_total hist c = c.
Proof.
  intros Hok. induction hist as [|s hist IH]; intros Hhits; simpl; [done|].
  rewrite (parseStyle_total_cache s c Hok).
  rewrite decide_True by (apply Hhits, list_elem_of_here).
  apply IH. intros s' Hs'. by apply Hhits, list_elem_of_further.
Qed.

Lemma cache_ok_nil : cache_ok [].
Proof. split_and!; [constructor | simpl; lia | constructor]. Qed.

Lemma calls_total_fill distinct repeats :
  length distinct = MAX_STYLE_CACHE_ENTRIES ->
  NoDup (trim <$> distinct) ->
  [] ∉ trim <$> distinct ->
  (forall s, s ∈ repeats -> trim s ∈ trim <$> distinct) ->
  calls_total (distinct ++ repeats) [] = entry <$> distinct.
Proof.
  intros Hlen Hnd Hnb Hrep.
  assert (calls_total distinct [] = entry <$> distinct) as Hfill.
  { rewrite calls_total_distinct; [done|apply cache_ok_nil|done..|simpl; lia]. }
  assert ((entry <$> distinct).*1 = trim <$> distinct) as Hkeys.
  { rewrite <- list_fmap_compose. by apply list_fmap_ext. }
  unfold calls_total. rewrite foldl_app.
  fold (calls_total distinct []). rewrite Hfill.
  apply calls_total_hits.
  - rewrite <- Hfill.
    apply reachable_ok, reachable_calls_total, reachable_init.
  - intros s Hs. right. rewrite Hkeys. by apply Hrep.
Qed.

Lemma is_miss_spec style c :
  is_miss style c = true <-> trim style <> [] /\ trim style ∉ c.*1.
Proof.
  unfold is_miss. rewrite <- Map_get_None.
  destruct (trim style) as [|ch n]; [by split; [|intros [? _]]|].
  destruct (Map_get (ch :: n) c); split; by try intros [_ ?].
Qed.

(** The cache holds the most recent insertions, at most
    [MAX_STYLE_CACHE_ENTRIES] of them, oldest first. *)
Lemma calls_total_insertions hist c (past : list (list N)) :
  cache_ok c ->
  c.*1 = drop (length past - MAX_STYLE_CACHE_ENTRIES) past ->
  (calls_total hist c).*1 =
  drop (length (past ++ insertions hist c) - MAX_STYLE_CACHE_ENTRIES)
       (past ++ insertions hist c).
Proof.
  revert c past. induction hist as [|s hist IH]; intros c past Hok Hpast.
  { simpl. by rewrite app_nil_r. }
  pose proof (parseStyle_total_ok s c Hok) as Hok'.
  pose proof (parseStyle_total_cache s c Hok) as Hstep.
  simpl. destruct (is_miss s c) eqn:Hmiss.
  - apply is_miss_spec in Hmiss as [Hne Hfresh].
    rewrite decide_False in Hstep by (intros [?|?]; done).
    rewrite (app_assoc past [trim s]). apply IH; [done|].
    rewrite Hstep, fmap_app. simpl.
    assert (length c.*1 = length c) as Hlenc by apply length_fmap.
    rewrite Hpast, length_drop in Hlenc.
    destruct Hok as (_ & Hbound & _).
    rewrite length_app. simpl. case_decide as Hfull.
    + rewrite fmap_tail, Hpast.
      replace (tail (drop (length past - MAX_STYLE_CACHE_ENTRIES) past))
        with (drop 1 (drop (length past - MAX_STYLE_CACHE_ENTRIES) past))
        by by destruct (drop _ past).
      rewrite drop_drop.
      unfold MAX_STYLE_CACHE_ENTRIES in *.
      replace (length past + 1 - 200)%nat with (length past - 200 + 1)%nat
        by lia.
      rewrite drop_app_le by lia. done.
    + rewrite Hpast. unfold MAX_STYLE_CACHE_ENTRIES in *.
      replace (length past - 200)%nat with 0%nat by lia.
      replace (length past + 1 - 200)%nat with 0%nat by lia.
      done.
  - assert (trim s = [] \/ trim s ∈ c.*1) as Hhit.
    { destruct (decide (trim s = [])) as [|Hne]; [by left|right].
      destruct (decide (trim s ∈ c.*1)) as [|Hfresh]; [done|].
      assert (is_miss s c = true) by by apply is_miss_spec.
      congruence. }
    rewrite decide_True in Hstep by done. rewrite Hstep. simpl.
    by apply IH.
Qed.

End Calls.

(** ** Assignments *)

Section Assignments.

Implicit Types (o : gmap (list N) (list N)) (k v : list N).
Implicit Types (ds : list (list N * list N)).

Lemma obj_set_lookup o k v :
  k <> PROTO -> obj_set o k v !! k = Some v.
Proof.
  intros Hk. unfold obj_set. rewrite decide_False by done.
  apply lookup_insert_eq.
Qed.

Lemma obj_set_lookup_ne o k k' v :
  k <> k' -> obj_set o k v !! k' = o !! k'.
Proof.
  intros Hk. unfold obj_set. case_decide; [done|].
  by apply lookup_insert_ne.
Qed.

Lemma obj_set_proto o v : obj_set o PROTO v = o.
Proof. unfold obj_set. by rewrite decide_True. Qed.

Lemma foldl_assign_lookup_ne ds o k :
  (forall d, d ∈ ds -> d.1 <> k) ->
  foldl assign o ds !! k = o !! k.
Proof.
  revert o. induction ds as [|d ds IH]; intros o Hds; simpl; [done|].
  rewrite IH by (intros d' Hd'; by apply Hds, list_elem_of_further).
  apply obj_set_lookup_ne, Hds, list_elem_of_here.
Qed.

(** No object built by the loop has an own property [__proto__]. *)
Lemma foldl_assign_proto ds o :
  foldl assign o ds !! PROTO = o !! PROTO.
Proof.
  revert o. induction ds as [|d ds IH]; intros o; simpl; [done|].
  rewrite IH. unfold assign. destruct (decide (d.1 = PROTO)) as [->|Hne].
  - by rewrite obj_set_proto.
  - by apply obj_set_lookup_ne.
Qed.

End Assignments.

(** * The style parser *)

Section StyleParser.

Implicit Types (c : list (list N * gmap (list N) (list N))).
Implicit Types (style el property value : list N).
Implicit Types (o : gmap (list N) (list N)).

(** C1: the style cache is transparent.  In every cache state that calls
    of [parseStyle] can produce (whatever the number of distinct inputs
    seen before), [parseStyle style] returns, and the object it returns is
    the one that the parsing algorithm without cache computes for
    [style]. *)
Theorem parseStyle_cache_transparent c style :
  reachable c ->
  exists o c',
    parseStyle style c = Ok (o, c') /\ parseStyle_uncached style = Ok o.
Proof.
  intros Hc. rewrite (parseStyle_reachable style c Hc).
  eexists _, _. split; [done|]. apply parseStyle_uncached_total.
Qed.

Lemma parseStyle_cache_transparent_witness :
  let c := calls_total (numbered_style <$> seq 0 201) [] in
  reachable c /\
  exists o c',
    parseStyle (numbered_style 0) c = Ok (o, c') /\
    parseStyle_uncached (numbered_style 0) = Ok o.
Proof.
  intros c.
  assert (reachable c) as H by apply reachable_calls_total, reachable_init.
  split; [exact H|]. exact (parseStyle_cache_transparent c _ H).
Defined.

(** C2 (the code differs): a declaration is split at every colon and only
    the first two pieces are used.  The value kept for
    [background: url(http://x.png)] is [url(http], not the whole text after
    the first colon; in general the text from the second colon on is
    dropped. *)
Theorem value_cut_at_second_colon :
  parseStyle (js "background: url(http://x.png)") [] =
    Ok ({[ js "background" := js "url(http" ]},
        [(js "background: url(http://x.png)",
          {[ js "background" := js "url(http" ]})]) /\
  ({[ js "background" := js "url(http" ]} : gmap (list N) (list N)) <>
    {[ js "background" := js "url(http://x.png)" ]} /\
  (forall property value more o,
     COLON ∉ property -> COLON ∉ value -> property <> [] ->
     styleElement (property ++ COLON :: value ++ COLON :: more) o =
     Ok (obj_set o (propertyName (trim property)) (trim value))).
Proof.
  split_and!.
  - vm_compute. reflexivity.
  - intros Heq.
    assert (({[ js "background" := js "url(http" ]} : gmap (list N) (list N))
              !! js "background" = Some (js "url(http://x.png)")) as H.
    { rewrite Heq. apply lookup_singleton_eq. }
    rewrite lookup_singleton_eq in H. vm_compute in H. discriminate H.
  - intros property value more o Hp Hv Hne.
    rewrite styleElement_declaration.
    erewrite declaration_pieces; [done| |done].
    rewrite (split_app_sep _ _ _ Hp). by rewrite (split_app_sep _ _ _ Hv).
Qed.

(** C4: [parseStyle] is deterministic up to trimming.  Two inputs that are
    equal after trimming yield the same object, in whatever reachable
    cache states the two calls are made. *)
Theorem parseStyle_trim_deterministic c1 c2 (s1 s2 : list N) :
  reachable c1 -> reachable c2 -> trim s1 = trim s2 ->
  exists o c1' c2',
    parseStyle s1 c1 = Ok (o, c1') /\ parseStyle s2 c2 = Ok (o, c2').
Proof.
  intros H1 H2 Heq.
  rewrite (parseStyle_reachable s1 c1 H1), (parseStyle_reachable s2 c2 H2).
  rewrite Heq. by eexists _, _, _.
Qed.

Lemma parseStyle_trim_deterministic_witness :
  reachable [] /\
  reachable (calls_total [js "x: 1"; js "color:red"] []) /\
  trim (js "  color:red") = trim (js "color:red   ") /\
  exists o c1' c2',
    parseStyle (js "  color:red") [] = Ok (o, c1') /\
    parseStyle (js "color:red   ")
      (calls_total [js "x: 1"; js "color:red"] []) = Ok (o, c2').
Proof.
  assert (reachable (calls_total [js "x: 1"; js "color:red"] [])) as H.
  { apply (reachable_calls [js "x: 1"; js "color:red"]).
    vm_compute. reflexivity. }
  assert (trim (js "  color:red") = trim (js "color:red   ")) as Heq.
  { vm_compute. reflexivity. }
  split_and!; [apply reachable_init | exact H | exact Heq |].
  exact (parseStyle_trim_deterministic _ _ _ _ reachable_init H Heq).
Defined.

(** C6: an input that is empty or made of white space only yields the
    empty object (and does not touch the cache). *)
Theorem parseStyle_blank style c :
  forallb is_whitespace style = true -> parseStyle style c = Ok (∅, c).
Proof.
  intros H. rewrite parseStyle_Ok. unfold parseStyle_total.
  by rewrite (trim_blank style H).
Qed.

Lemma parseStyle_blank_witness :
  forallb is_whitespace (js "   ") = true /\
  parseStyle (js "   ") [] = Ok (∅, []) /\
  parseStyle (js "") [] = Ok (∅, []).
Proof.
  split_and!.
  - vm_compute. reflexivity.
  - apply parseStyle_blank. vm_compute. reflexivity.
  - apply parseStyle_blank. vm_compute. reflexivity.
Defined.

(** C8: [parseStyle("color: red; --x: 1; margin-top : 2px")] is the object
    [{color: "red", "--x": "1", marginTop: "2px"}], in every reachable
    cache state. *)
Theorem parseStyle_example c :
  reachable c ->
  exists c',
    parseStyle (js "color: red; --x: 1; margin-top : 2px") c =
    Ok ({[ js "color" := js "red"; js "--x" := js "1";
           js "marginTop" := js "2px" ]}, c').
Proof.
  intros Hc. rewrite (parseStyle_reachable _ c Hc).
  replace (styleOf (trim (js "color: red; --x: 1; margin-top : 2px")))
    with ({[ js "color" := js "red"; js "--x" := js "1";
             js "marginTop" := js "2px" ]} : gmap (list N) (list N))
    by (vm_compute; reflexivity).
  by eexists.
Qed.

Lemma parseStyle_example_witness :
  reachable [] /\
  exists c',
    parseStyle (js "color: red; --x: 1; margin-top : 2px") [] =
    Ok ({[ js "color" := js "red"; js "--x" := js "1";
           js "marginTop" := js "2px" ]}, c').
Proof.
  split; [apply reachable_init|].
  exact (parseStyle_example [] reachable_init).
Defined.

(** C3: the cache never holds more than 200 entries; a call whose input is
    blank or already cached leaves the cache as it is (no reordering on
    access); a new input is appended at the end; when the cache is full,
    exactly the entry at the front, the oldest inserted, is removed first.
    In particular, after 200 distinct inputs followed by any further
    accesses to them, a 201st distinct input evicts the first one ever
    inserted.  At any time the keys of the cache are the most recent
    insertions, at most 200 of them, in the order of their insertion. *)
Theorem styleCache_bounded_fifo c style o c' :
  reachable c -> parseStyle style c = Ok (o, c') ->
  (length c <= MAX_STYLE_CACHE_ENTRIES /\
   length c' <= MAX_STYLE_CACHE_ENTRIES)%nat /\
  (trim style = [] \/ trim style ∈ c.*1 -> c' = c) /\
  (trim style <> [] -> trim style ∉ c.*1 ->
   (length c < MAX_STYLE_CACHE_ENTRIES)%nat ->
   c' = c ++ [(trim style, o)]) /\
  (trim style <> [] -> trim style ∉ c.*1 ->
   length c = MAX_STYLE_CACHE_ENTRIES ->
   exists oldest rest, c = oldest :: rest /\ c' = rest ++ [(trim style, o)]) /\
  (forall distinct repeats : list (list N),
     length distinct = MAX_STYLE_CACHE_ENTRIES ->
     NoDup (trim <$> distinct) -> [] ∉ trim <$> distinct ->
     (forall s, s ∈ repeats -> trim s ∈ trim <$> distinct) ->
     parseStyle_calls (distinct ++ repeats) [] = Ok (tt, c) ->
     trim style <> [] -> trim style ∉ trim <$> distinct ->
     c'.*1 = tail (trim <$> distinct) ++ [trim style]) /\
  (forall hist : list (list N),
     parseStyle_calls hist [] = Ok (tt, c) ->
     c.*1 = drop (length (insertions hist []) - MAX_STYLE_CACHE_ENTRIES)
                 (insertions hist [])).
Proof.
  intros Hreach Hcall. pose proof (reachable_ok c Hreach) as Hok.
  rewrite (parseStyle_reachable style c Hreach) in Hcall.
  injection Hcall as Ho Hc'.
  pose proof (parseStyle_total_ok style c Hok) as Hok'. rewrite Hc' in Hok'.
  rewrite (parseStyle_total_cache style c Hok), Ho in Hc'.
  assert (trim style <> [] -> trim style ∉ c.*1 ->
          length c = MAX_STYLE_CACHE_ENTRIES ->
          c' = tail c ++ [(trim style, o)]) as Hfull.
  { intros Hne Hfresh Hlen.
    rewrite decide_False in Hc' by (intros [?|?]; done).
    by rewrite decide_True in Hc' by done. }
  split; [|split_and!].
  - destruct Hok as (_ & Hlen & _). by destruct Hok' as (_ & Hlen' & _).
  - intros Hhit. by rewrite decide_True in Hc' by done.
  - intros Hne Hfresh Hlen.
    rewrite decide_False in Hc' by (intros [?|?]; done).
    by rewrite decide_False in Hc' by lia.
  - intros Hne Hfresh Hlen. rewrite (Hfull Hne Hfresh Hlen).
    destruct c as [|oldest rest]; [done|]. by exists oldest, rest.
  - intros distinct repeats Hlen Hnd Hnb Hrep Hcalls Hne Hfresh.
    rewrite parseStyle_calls_Ok in Hcalls. injection Hcalls as Hc.
    rewrite (calls_total_fill distinct repeats Hlen Hnd Hnb Hrep) in Hc.
    assert (c.*1 = trim <$> distinct) as Hkeys.
    { rewrite <- Hc, <- list_fmap_compose. by apply list_fmap_ext. }
    rewrite Hfull; [|done| by rewrite Hkeys |].
    + by rewrite fmap_app, fmap_tail, Hkeys.
    + by rewrite <- Hc, length_fmap.
  - intros hist Hcalls.
    rewrite parseStyle_calls_Ok in Hcalls. injection Hcalls as <-.
    apply (calls_total_insertions hist [] []); [apply cache_ok_nil | done].
Qed.

Lemma styleCache_bounded_fifo_witness :
  let distinct := numbered_style <$> seq 0 200 in
  let c := calls_total (distinct ++ [numbered_style 0]) [] in
  let style := js " color: red " in
  reachable c /\ length c = 200%nat /\ c.*1 = trim <$> distinct /\
  exists o c',
    parseStyle style c = Ok (o, c') /\
    (length c' <= 200)%nat /\
    c'.*1 = tail (trim <$> distinct) ++ [js "color: red"].
Proof.
  intros distinct c style.
  assert (reachable c) as Hreach
    by apply reachable_calls_total, reachable_init.
  split_and!; [exact Hreach | vm_compute; reflexivity
              | vm_compute; reflexivity |].
  destruct (parseStyle_total style c) as [o c'] eqn:Htotal.
  assert (parseStyle style c = Ok (o, c')) as Hcall
    by exact (eq_trans (parseStyle_Ok style c) (f_equal Ok Htotal)).
  exists o, c'.
  destruct (styleCache_bounded_fifo c style o c' Hreach Hcall)
    as ([_ Hbound] & _ & _ & _ & Hfirst & _).
  split_and!; [exact Hcall | exact Hbound |].
  apply (Hfirst distinct [numbered_style 0]).
  - vm_compute. reflexivity.
  - apply (bool_decide_unpack _). vm_compute. exact I.
  - apply (bool_decide_unpack _). vm_compute. exact I.
  - intros s Hs. apply list_elem_of_singleton in Hs. subst s.
    apply (bool_decide_unpack _). vm_compute. exact I.
  - apply parseStyle_calls_Ok.
  - vm_compute. discriminate.
  - apply (bool_decide_unpack _). vm_compute. exact I.
Defined.

(** C5 (the code differs): the value of a well-formed declaration is not
    always stored as it stands.  For [background: url(http://x.png)] the
    trimmed text after the colon is [url(http://x.png)] but [url(http] is
    stored; for [__proto__: x], whose split gives a property and a value,
    nothing is stored. *)
Theorem declared_value_not_stored_as_is :
  parseStyle (js "background: url(http://x.png)") [] =
    Ok ({[ js "background" := js "url(http" ]},
        [(js "background: url(http://x.png)",
          {[ js "background" := js "url(http" ]})]) /\
  trim (js " url(http://x.png)") <> js "url(http" /\
  split COLON (js "__proto__: x") = [js "__proto__"; js " x"] /\
  parseStyle (js "__proto__: x") [] = Ok (∅, [(js "__proto__: x", ∅)]).
Proof.
  split_and!.
  - vm_compute. reflexivity.
  - vm_compute. discriminate.
  - vm_compute. reflexivity.
  - vm_compute. reflexivity.
Qed.

(** The loop body on a candidate whose split at colons starts with a
    non-empty property piece and a value piece: the property is trimmed,
    converted with [toCamelCase] unless it starts with [--], and the
    trimmed value piece is assigned to it. *)
Theorem declaration_normalized el property value (rest : list (list N)) o :
  split COLON el = property :: value :: rest -> property <> [] ->
  let name :=
    if startsWith (js "--") (trim property)
    then trim property else toCamelCase (trim property) in
  styleElement el o = Ok (obj_set o name (trim value)) /\
  (name <> PROTO -> obj_set o name (trim value) !! name = Some (trim value)) /\
  (forall (a b : list N) (x : N),
     is_lower x = true ->
     toCamelCase (a ++ HYPHEN :: x :: b) =
       toCamelCase a ++ toUpperCase x :: toCamelCase b /\
     65 <= toUpperCase x <= 90 /\ toUpperCase x + 32 = x) /\
  (forall s : list N, HYPHEN ∉ s -> toCamelCase s = s).
Proof.
  intros Hsplit Hne name. split_and!.
  - rewrite styleElement_declaration.
    by rewrite (declaration_pieces el property value rest Hsplit Hne).
  - apply obj_set_lookup.
  - intros a b x Hx. split.
    + by apply toCamelCase_hyphen_lower.
    + by apply toUpperCase_lower.
  - apply toCamelCase_no_hyphen.
Qed.

Lemma declaration_normalized_witness :
  split COLON (js " margin-top : 2px ") = [js " margin-top "; js " 2px "] /\
  js " margin-top " <> [] /\
  styleElement (js " margin-top : 2px ") ∅ =
    Ok {[ js "marginTop" := js "2px" ]} /\
  split COLON (js " --my-var: a b") = [js " --my-var"; js " a b"] /\
  styleElement (js " --my-var: a b") ∅ = Ok {[ js "--my-var" := js "a b" ]}.
Proof.
  assert (split COLON (js " margin-top : 2px ")
          = [js " margin-top "; js " 2px "]) as H1
    by (vm_compute; reflexivity).
  assert (js " margin-top " <> []) as H2 by (vm_compute; discriminate).
  assert (split COLON (js " --my-var: a b") = [js " --my-var"; js " a b"])
    as H3 by (vm_compute; reflexivity).
  assert (js " --my-var" <> []) as H4 by (vm_compute; discriminate).
  split_and!; [exact H1 | exact H2 | | exact H3 |].
  - destruct (declaration_normalized _ _ _ _ ∅ H1 H2) as [-> _].
    vm_compute. reflexivity.
  - destruct (declaration_normalized _ _ _ _ ∅ H3 H4) as [-> _].
    vm_compute. reflexivity.
Defined.

(** C7 (the code differs): a candidate whose property part is white space
    only is not skipped.  In [a:b; :c] the second candidate is [ :c]; its
    property piece [ ] passes the test [!property], which is made before
    the trimming, and the value [c] is stored under the empty name. *)
Theorem blank_property_not_skipped :
  split SEMICOLON (trim (js "a:b; :c")) = [js "a:b"; js " :c"] /\
  split COLON (js " :c") = [js " "; js "c"] /\
  trim (js " ") = [] /\
  parseStyle (js "a:b; :c") [] =
    Ok ({[ js "a" := js "b"; [] := js "c" ]},
        [(js "a:b; :c", {[ js "a" := js "b"; [] := js "c" ]})]) /\
  ({[ js "a" := js "b"; [] := js "c" ]} : gmap (list N) (list N)) !! []
  = Some (js "c").
Proof.
  split_and!; vm_compute; reflexivity.
Qed.

(** [parseStyle] returns in every cache state, and which candidates the
    loop body leaves out: those without colon and those with nothing in
    front of their first colon. *)
Theorem parseStyle_never_throws style c :
  (exists o c', parseStyle style c = Ok (o, c')) /\
  parseStyle_uncached style =
    Ok (foldl assign ∅ (omap declaration (split SEMICOLON (trim style)))) /\
  (forall el o, COLON ∉ el -> styleElement el o = Ok o) /\
  (forall (rest : list N) o, styleElement (COLON :: rest) o = Ok o) /\
  (forall el o, declaration el = None -> styleElement el o = Ok o) /\
  (forall el,
     declaration el = None <->
     COLON ∉ el \/ exists rest : list N, el = COLON :: rest) /\
  (forall property (rest : list N) o,
     property <> [] -> COLON ∉ property ->
     exists value more,
       split COLON rest = value :: more /\
       styleElement (property ++ COLON :: rest) o =
       Ok (obj_set o (propertyName (trim property)) (trim value))).
Proof.
  assert (forall property (rest : list N),
            COLON ∉ property ->
            exists value more,
              split COLON rest = value :: more /\
              split COLON (property ++ COLON :: rest)
              = property :: value :: more) as Hdecompose.
  { intros property rest Hp. rewrite (split_app_sep _ _ _ Hp).
    destruct (split COLON rest) as [|value more] eqn:E.
    - by destruct (split_nonempty COLON rest).
    - by exists value, more. }
  split_and!.
  - rewrite parseStyle_Ok.
    by exists (parseStyle_total style c).1, (parseStyle_total style c).2;
      destruct (parseStyle_total style c).
  - apply parseStyle_uncached_total.
  - intros el o Hel. rewrite styleElement_declaration.
    by rewrite (declaration_no_colon el Hel).
  - intros rest o. by rewrite styleElement_declaration.
  - intros el o Hel. by rewrite styleElement_declaration, Hel.
  - intros el. split.
    + intros Hnone.
      destruct (first_separator COLON el) as [Hel | (a & b & -> & Ha)];
        [by left|].
      destruct a as [|ch a]; [right; by exists b|].
      destruct (Hdecompose (ch :: a) b Ha) as (value & more & _ & Hsplit).
      by rewrite (declaration_pieces _ _ _ _ Hsplit) in Hnone.
    + intros [Hel | [rest ->]]; [by apply declaration_no_colon | done].
  - intros property rest o Hne Hp.
    destruct (Hdecompose property rest Hp) as (value & more & Hrest & Hsplit).
    exists value, more. split; [done|].
    rewrite styleElement_declaration.
    by rewrite (declaration_pieces _ _ _ _ Hsplit Hne).
Qed.

Lemma parseStyle_never_throws_witness :
  (exists o c',
     parseStyle (js "a:b;novalue; :c;:d; e : f") [] = Ok (o, c')) /\
  styleElement (js "novalue") ∅ = Ok ∅ /\
  styleElement (js ":d") ∅ = Ok ∅ /\
  styleElement (js " e : f") ∅ = Ok {[ js "e" := js "f" ]}.
Proof.
  destruct (parseStyle_never_throws (js "a:b;novalue; :c;:d; e : f") [])
    as (Hreturns & _ & Hnocolon & Hnoproperty & _ & _ & Hassigned).
  split_and!.
  - exact Hreturns.
  - apply Hnocolon. apply (bool_decide_unpack _). vm_compute. exact I.
  - exact (Hnoproperty (js "d") ∅).
  - destruct (Hassigned (js " e ") (js " f") ∅)
      as (value & more & Hsplit & Hel).
    + vm_compute. discriminate.
    + apply (bool_decide_unpack _). vm_compute. exact I.
    + vm_compute in Hsplit. injection Hsplit as <- <-.
      etrans; [exact Hel|]. vm_compute. reflexivity.
Defined.

(** C9 (the code differs): for the name [__proto__] no declaration wins.
    Both candidates of [__proto__: a; __proto__: b] produce the name, and
    the object returned is empty: the value of the last one is not in
    it. *)
Theorem proto_last_declaration_lost :
  split SEMICOLON (trim (js "__proto__: a; __proto__: b"))
  = [js "__proto__: a"; js " __proto__: b"] /\
  split COLON (js "__proto__: a") = [js "__proto__"; js " a"] /\
  split COLON (js " __proto__: b") = [js " __proto__"; js " b"] /\
  parseStyle (js "__proto__: a; __proto__: b") [] =
    Ok (∅, [(js "__proto__: a; __proto__: b", ∅)]) /\
  (∅ : gmap (list N) (list N)) !! js "__proto__" = None.
Proof.
  split_and!; vm_compute; reflexivity.
Qed.

(** X14: if [el] is the last candidate of the trimmed input that produces
    the name [k], with value [v], the binding of [k] in the object
    returned is the one that the assignment of [v] to [k] creates on an
    empty object, whatever earlier candidates assigned to [k]: for every
    name other than [__proto__] the object maps [k] to [v]. *)
Theorem last_declaration_wins c style (pre post : list (list N)) el
    (k v : list N) :
  reachable c ->
  split SEMICOLON (trim style) = pre ++ el :: post ->
  declaration el = Some (k, v) ->
  (forall el' d, el' ∈ post -> declaration el' = Some d -> d.1 <> k) ->
  exists o c',
    parseStyle style c = Ok (o, c') /\
    o !! k = obj_set ∅ k v !! k /\
    (k <> PROTO -> o !! k = Some v).
Proof.
  intros Hc Hsplit Hel Hpost.
  rewrite (parseStyle_reachable style c Hc). eexists _, _.
  split; [done|].
  assert (styleOf (trim style) !! k = obj_set ∅ k v !! k) as Hk.
  { unfold styleOf. rewrite Hsplit, omap_app. simpl. rewrite Hel.
    rewrite foldl_app. simpl. rewrite foldl_assign_lookup_ne.
    - unfold assign. simpl. destruct (decide (k = PROTO)) as [->|Hne].
      + by rewrite !obj_set_proto, foldl_assign_proto.
      + by rewrite !obj_set_lookup.
    - intros d (el' & Hin & Hd)%list_elem_of_omap. by apply (Hpost el' d). }
  split; [done|]. intros Hne. by rewrite Hk, obj_set_lookup.
Qed.

Lemma last_declaration_wins_witness :
  reachable [] /\
  split SEMICOLON (trim (js "a: 1; b: 2; a : 3; c: 4"))
  = [js "a: 1"; js " b: 2"] ++ js " a : 3" :: [js " c: 4"] /\
  declaration (js " a : 3") = Some (js "a", js "3") /\
  exists o c',
    parseStyle (js "a: 1; b: 2; a : 3; c: 4") [] = Ok (o, c') /\
    o !! js "a" = Some (js "3").
Proof.
  assert (split SEMICOLON (trim (js "a: 1; b: 2; a : 3; c: 4"))
          = [js "a: 1"; js " b: 2"] ++ js " a : 3" :: [js " c: 4"]) as H1
    by (vm_compute; reflexivity).
  assert (declaration (js " a : 3") = Some (js "a", js "3")) as H2
    by (vm_compute; reflexivity).
  split_and!; [apply reachable_init | exact H1 | exact H2 |].
  destruct (last_declaration_wins [] _ _ _ _ _ _ reachable_init H1 H2)
    as (o & c' & Hcall & _ & Hlast).
  - intros el' d Hin%list_elem_of_singleton Hd. subst el'.
    vm_compute in Hd. injection Hd as <-. vm_compute. discriminate.
  - exists o, c'. split; [exact Hcall|]. apply Hlast.
    vm_compute. discriminate.
Defined.

(** C10 (the code differs): the declaration [__proto__:] has a colon, a
    non-empty property part and an empty value part; it passes the test
    of the loop, but the object returned has no entry for it. *)
Theorem proto_empty_value_not_retained :
  split COLON (js "__proto__:") = [js "__proto__"; []] /\
  falsy (Some (js "__proto__")) || is_undefined (Some []) = false /\
  parseStyle (js "__proto__:") [] = Ok (∅, [(js "__proto__:", ∅)]) /\
  parseStyle (js "color:") [] =
    Ok ({[ js "color" := [] ]}, [(js "color:", {[ js "color" := [] ]})]).
Proof.
  split_and!; vm_compute; reflexivity.
Qed.

(** The loop body on a candidate whose value piece is empty or white
    space only, and on a candidate that starts with a colon. *)
Theorem empty_value_kept_empty_property_skipped :
  (forall el property value (rest : list (list N)) o,
     split COLON el = property :: value :: rest ->
     property <> [] -> forallb is_whitespace value = true ->
     styleElement el o = Ok (obj_set o (propertyName (trim property)) []) /\
     (propertyName (trim property) <> PROTO ->
      obj_set o (propertyName (trim property)) []
        !! propertyName (trim property) = Some [])) /\
  (forall (rest : list N) o, styleElement (COLON :: rest) o = Ok o) /\
  (forall c, reachable c ->
     exists c1 c2 c3 c4,
       parseStyle (js "color:") c = Ok ({[ js "color" := [] ]}, c1) /\
       parseStyle (js "color:   ") c = Ok ({[ js "color" := [] ]}, c2) /\
       parseStyle (js "color:   ; top: 0") c =
         Ok ({[ js "color" := []; js "top" := js "0" ]}, c3) /\
       parseStyle (js ": red") c = Ok (∅, c4)).
Proof.
  split_and!.
  - intros el property value rest o Hsplit Hne Hblank.
    rewrite styleElement_declaration.
    rewrite (declaration_pieces _ _ _ _ Hsplit Hne).
    rewrite (trim_blank value Hblank). split; [done|]. apply obj_set_lookup.
  - intros rest o. by rewrite styleElement_declaration.
  - intros c Hc. rewrite !(parseStyle_reachable _ c Hc).
    assert (styleOf (trim (js "color:")) = {[ js "color" := [] ]}) as ->
      by (vm_compute; reflexivity).
    assert (styleOf (trim (js "color:   ")) = {[ js "color" := [] ]}) as ->
      by (vm_compute; reflexivity).
    assert (styleOf (trim (js "color:   ; top: 0"))
            = {[ js "color" := []; js "top" := js "0" ]}) as ->
      by (vm_compute; reflexivity).
    assert (styleOf (trim (js ": red")) = ∅) as ->
      by (vm_compute; reflexivity).
    by eexists _, _, _, _.
Qed.

Lemma empty_value_kept_empty_property_skipped_witness :
  split COLON (js "color:   ") = [js "color"; js "   "] /\
  forallb is_whitespace (js "   ") = true /\
  styleElement (js "color:   ") ∅ = Ok {[ js "color" := [] ]} /\
  styleElement (js ": red") ∅ = Ok ∅.
Proof.
  destruct empty_value_kept_empty_property_skipped
    as (Hkept & Hskipped & _).
  assert (split COLON (js "color:   ") = [js "color"; js "   "]) as Hsplit
    by (vm_compute; reflexivity).
  assert (forallb is_whitespace (js "   ") = true) as Hblank
    by (vm_compute; reflexivity).
  split_and!; [exact Hsplit | exact Hblank | | exact (Hskipped (js " red") ∅)].
  destruct (Hkept _ _ _ _ ∅ Hsplit) as [Hel _];
    [vm_compute; discriminate | exact Hblank |].
  etrans; [exact Hel|]. vm_compute. reflexivity.
Defined.

(** Remark: the test for a missing property is made before the property
    is trimmed, so a property part made of white space only is not
    skipped; its value is assigned to the empty name. *)
Lemma blank_property_assigned :
  parseStyle_uncached (js "a:b; :c") = Ok {[ js "a" := js "b"; [] := js "c" ]}
  /\ parseStyle_uncached (js "a:b;:c") = Ok {[ js "a" := js "b" ]}.
Proof. split; vm_compute; reflexivity. Qed.

(** Remark: a declaration for [__proto__] is not skipped, but the
    assignment creates no entry. *)
Lemma proto_declaration_no_entry :
  declaration (js "__proto__: x") = Some (PROTO, js "x") /\
  parseStyle_uncached (js "__proto__: x; a: 1") = Ok {[ js "a" := js "1" ]}.
Proof. split; vm_compute; reflexivity. Qed.

End StyleParser.

(** * Further properties of the style parser *)

(** ** Trimming *)

Section Trimming.

Implicit Types (s a b ws : list N) (c : N).

Lemma blank_rev ws :
  forallb is_whitespace ws = true -> forallb is_whitespace (rev ws) = true.
Proof.
  rewrite !forallb_forall. intros H x Hx. apply H. by apply in_rev.
Qed.

Lemma blank_app ws1 ws2 :
  forallb is_whitespace ws1 = true -> forallb is_whitespace ws2 = true ->
  forallb is_whitespace (ws1 ++ ws2) = true.
Proof. intros H1 H2. rewrite forallb_app. by rewrite H1, H2. Qed.

Lemma blank_not_elem ws c :
  forallb is_whitespace ws = true -> is_whitespace c = false -> c ∉ ws.
Proof.
  rewrite forallb_forall. intros H Hc Hin.
  apply list_elem_of_In in Hin. rewrite (H c Hin) in Hc. discriminate.
Qed.

Lemma trimStart_starts s : starts_trimmed (trimStart s) = true.
Proof.
  induction s as [|c s IH]; simpl; [done|].
  destruct (is_whitespace c) eqn:E; [done|]. simpl. by rewrite E.
Qed.

Lemma trimStart_fixed s : starts_trimmed s = true -> trimStart s = s.
Proof.
  destruct s as [|c s]; simpl; [done|]. by destruct (is_whitespace c).
Qed.

Lemma trimStart_split s :
  exists ws, s = ws ++ trimStart s /\ forallb is_whitespace ws = true.
Proof.
  induction s as [|c s (ws & Hs & Hws)]; simpl.
  - by exists [].
  - destruct (is_whitespace c) eqn:E.
    + exists (c :: ws). simpl. rewrite E. split; [by f_equal | done].
    + by exists [].
Qed.

Lemma trimStart_app_blank ws s :
  forallb is_whitespace ws = true -> trimStart (ws ++ s) = trimStart s.
Proof.
  induction ws as [|c ws IH]; simpl; [done|].
  intros [Hc Hws]%andb_prop. rewrite Hc. auto.
Qed.

Lemma trimStart_app_stop a c b :
  is_whitespace c = false -> trimStart (a ++ c :: b) = trimStart a ++ c :: b.
Proof.
  intros Hc. induction a as [|x a IH]; simpl.
  - by rewrite Hc.
  - by destruct (is_whitespace x).
Qed.

Lemma trimStart_nil_blank s :
  trimStart s = [] -> forallb is_whitespace s = true.
Proof.
  intros H. destruct (trimStart_split s) as (ws & Hs & Hws).
  rewrite H, app_nil_r in Hs. by subst.
Qed.

Lemma trimEnd_split s :
  exists ws, s = trimEnd s ++ ws /\ forallb is_whitespace ws = true.
Proof.
  unfold trimEnd. destruct (trimStart_split (rev s)) as (ws & Hs & Hws).
  exists (rev ws). split; [|by apply blank_rev].
  apply (f_equal (@rev N)) in Hs.
  by rewrite rev_involutive, rev_app_distr in Hs.
Qed.

Lemma trimEnd_app_blank s ws :
  forallb is_whitespace ws = true -> trimEnd (s ++ ws) = trimEnd s.
Proof.
  intros H. unfold trimEnd. rewrite rev_app_distr.
  by rewrite trimStart_app_blank by by apply blank_rev.
Qed.

Lemma trimEnd_app_stop a c b :
  is_whitespace c = false -> trimEnd (a ++ c :: b) = a ++ c :: trimEnd b.
Proof.
  intros Hc. unfold trimEnd. rewrite rev_app_distr. simpl.
  rewrite <- app_assoc. simpl. rewrite (trimStart_app_stop _ _ _ Hc).
  rewrite rev_app_distr. simpl. rewrite rev_involutive.
  by rewrite <- app_assoc.
Qed.

Lemma trim_starts s : starts_trimmed (trim s) = true.
Proof.
  unfold trim. pose proof (trimStart_starts s) as Hstart.
  destruct (trimEnd_split (trimStart s)) as (ws & Hs & _).
  destruct (trimEnd (trimStart s)) as [|c t]; [done|].
  rewrite Hs in Hstart. exact Hstart.
Qed.

Lemma trim_ends s : ends_trimmed (trim s) = true.
Proof.
  unfold ends_trimmed, trim, trimEnd. rewrite rev_involutive.
  apply trimStart_starts.
Qed.

Lemma trim_fixed s :
  starts_trimmed s = true -> ends_trimmed s = true -> trim s = s.
Proof.
  intros H1 H2. unfold trim. rewrite (trimStart_fixed s H1).
  unfold trimEnd. rewrite (trimStart_fixed _ H2). apply rev_involutive.
Qed.

Lemma trim_idempotent s : trim (trim s) = trim s.
Proof. apply trim_fixed; [apply trim_starts | apply trim_ends]. Qed.

Lemma trim_app_blank s ws :
  forallb is_whitespace ws = true -> trim (s ++ ws) = trim s.
Proof.
  intros Hws. unfold trim.
  destruct (trimStart_split s) as (ws' & Hs & Hws').
  destruct (trimStart s) as [|c t] eqn:E.
  - rewrite app_nil_r in Hs. subst ws'.
    by rewrite (trimStart_blank (s ++ ws)) by by apply blank_app.
  - pose proof (trimStart_starts s) as Hc. rewrite E in Hc. simpl in Hc.
    apply negb_true_iff in Hc.
    rewrite Hs at 1. rewrite <- app_assoc. simpl.
    rewrite (trimStart_app_stop _ _ _ Hc).
    rewrite (trimStart_blank ws' Hws'). simpl.
    exact (trimEnd_app_blank (c :: t) ws Hws).
Qed.

Lemma trim_trimEnd s : trim (trimEnd s) = trim s.
Proof.
  destruct (trimEnd_split s) as (ws & Hs & Hws).
  rewrite Hs at 2. by rewrite trim_app_blank.
Qed.

Lemma trim_app_stop a c b :
  is_whitespace c = false ->
  trim (a ++ c :: b) = trimStart a ++ c :: trimEnd b.
Proof.
  intros Hc. unfold trim.
  by rewrite (trimStart_app_stop _ _ _ Hc), (trimEnd_app_stop _ _ _ Hc).
Qed.

Lemma trimStart_elem s c : c ∈ trimStart s -> c ∈ s.
Proof.
  destruct (trimStart_split s) as (ws & Hs & _). intros H.
  rewrite Hs. apply elem_of_app. by right.
Qed.

Lemma trim_elem s c : c ∈ trim s -> c ∈ s.
Proof.
  unfold trim. intros H. apply trimStart_elem.
  destruct (trimEnd_split (trimStart s)) as (ws & Hs & _).
  rewrite Hs. apply elem_of_app. by left.
Qed.

End Trimming.

(** ** Splitting *)

Section Splitting.

Implicit Types (s a b ws el : list N) (sep c : N).

Lemma split_app sep a b :
  split sep (a ++ sep :: b) = split sep a ++ split sep b.
Proof.
  induction a as [|c a IH]; simpl.
  - by rewrite N.eqb_refl.
  - destruct (c =? sep); [by rewrite IH|]. rewrite IH.
    pose proof (split_nonempty sep a) as Hne.
    by destruct (split sep a).
Qed.

Lemma split_app_last sep s ws :
  sep ∉ ws -> split sep (s ++ ws) = app_last (split sep s) ws.
Proof.
  intros Hws. induction s as [|c s IH]; simpl.
  - by apply split_no_sep.
  - pose proof (split_nonempty sep s) as Hne. rewrite IH.
    destruct (c =? sep); destruct (split sep s) as [|p [|q ps]]; done.
Qed.

Lemma split_piece_elem sep s (p : list N) c :
  p ∈ split sep s -> c ∈ p -> c ∈ s /\ c <> sep.
Proof.
  revert p. induction s as [|x s IH]; intros p; simpl.
  - intros ->%list_elem_of_singleton. by intros ?%elem_of_nil.
  - destruct (N.eqb_spec x sep) as [->|Hx].
    + intros [->|Hp]%elem_of_cons Hc; [by apply elem_of_nil in Hc|].
      destruct (IH p Hp Hc). split; [by apply list_elem_of_further | done].
    + pose proof (split_nonempty sep s) as Hne.
      destruct (split sep s) as [|q qs]; [done|].
      intros [->|Hp]%elem_of_cons Hc.
      * apply elem_of_cons in Hc as [->|Hc]; [by split; [left|]|].
        destruct (IH q (list_elem_of_here _ _) Hc).
        split; [by apply list_elem_of_further | done].
      * destruct (IH p (list_elem_of_further _ _ _ Hp) Hc).
        split; [by apply list_elem_of_further | done].
Qed.

Lemma declaration_app_blank el ws :
  forallb is_whitespace ws = true -> declaration (el ++ ws) = declaration el.
Proof.
  intros Hws. unfold declaration.
  rewrite split_app_last by by apply blank_not_elem.
  destruct (split COLON el) as [|p [|v [|r rest]]]; simpl.
  - done.
  - destruct p; by destruct ws.
  - destruct p; [done|]. by rewrite trim_app_blank.
  - by destruct p.
Qed.

Lemma omap_declaration_app_last (ps : list (list N)) ws :
  forallb is_whitespace ws = true ->
  omap declaration (app_last ps ws) = omap declaration ps.
Proof.
  intros Hws. induction ps as [|p [|q ps] IH]; [done| |].
  - simpl. by rewrite declaration_app_blank.
  - change (app_last (p :: q :: ps) ws) with (p :: app_last (q :: ps) ws).
    change (omap declaration (p :: app_last (q :: ps) ws))
      with (match declaration p with
            | Some d => d :: omap declaration (app_last (q :: ps) ws)
            | None => omap declaration (app_last (q :: ps) ws)
            end).
    by rewrite IH.
Qed.

Lemma omap_declaration_nil (els : list (list N)) :
  (forall el, el ∈ els -> declaration el = None) ->
  omap declaration els = [].
Proof.
  induction els as [|el els IH]; intros H; [done|]. simpl.
  rewrite (H el) by left. apply IH. intros el' Hel'. apply H. by right.
Qed.

Lemma styleOf_app_blank s ws :
  forallb is_whitespace ws = true -> styleOf (s ++ ws) = styleOf s.
Proof.
  intros Hws. unfold styleOf.
  rewrite split_app_last by by apply blank_not_elem.
  by rewrite omap_declaration_app_last.
Qed.

Lemma styleOf_trimStart s : styleOf (trimStart s) = styleOf (trim s).
Proof.
  destruct (trimEnd_split (trimStart s)) as (ws & Hs & Hws).
  rewrite Hs at 1. by apply styleOf_app_blank.
Qed.

End Splitting.

(** ** Merging objects *)

Section Merging.

Implicit Types (o : gmap (list N) (list N)) (k v : list N).
Implicit Types (ds : list (list N * list N)).

Lemma assign_union o (d : list N * list N) : assign o d = assign ∅ d ∪ o.
Proof.
  unfold assign, obj_set. case_decide.
  - by rewrite (left_id_L ∅ (∪)).
  - by rewrite insert_empty, insert_union_singleton_l.
Qed.

Lemma foldl_assign_union ds o : foldl assign o ds = foldl assign ∅ ds ∪ o.
Proof.
  revert o. induction ds as [|d ds IH]; intros o; simpl.
  - by rewrite (left_id_L ∅ (∪)).
  - rewrite (IH (assign o d)), (IH (assign ∅ d)), (assign_union o d).
    by rewrite (assoc_L (∪)).
Qed.

Lemma styleOf_app (a b : list N) :
  styleOf (a ++ SEMICOLON :: b) = styleOf b ∪ styleOf a.
Proof.
  unfold styleOf. rewrite split_app, omap_app, foldl_app.
  apply foldl_assign_union.
Qed.

(** Every entry of the object comes from an assignment. *)
Lemma foldl_assign_origin ds o k v :
  foldl assign o ds !! k = Some v -> o !! k = Some v \/ (k, v) ∈ ds.
Proof.
  revert o. induction ds as [|[k' v'] ds IH]; intros o; simpl; [by left|].
  intros [H|H]%IH; [|right; by apply list_elem_of_further].
  unfold assign, obj_set in H. simpl in H. case_decide; [by left|].
  destruct (decide (k' = k)) as [->|Hne].
  - rewrite lookup_insert_eq in H. injection H as ->. right. left.
  - rewrite lookup_insert_ne in H by done. by left.
Qed.

Lemma styleOf_origin (n : list N) k v :
  styleOf n !! k = Some v ->
  exists el (property value : list N) (rest : list (list N)),
    el ∈ split SEMICOLON n /\
    split COLON el = property :: value :: rest /\ property <> [] /\
    k = propertyName (trim property) /\ v = trim value.
Proof.
  unfold styleOf. intros [H|H]%foldl_assign_origin; [by rewrite lookup_empty in H|].
  apply list_elem_of_omap in H as (el & Hel & Hd). exists el.
  unfold declaration in Hd.
  destruct (split COLON el) as [|[|c p] [|value rest]]; try done.
  injection Hd as <- <-. by exists (c :: p), value, rest.
Qed.

End Merging.

(** ** More on [toCamelCase] *)

Section CamelCaseMore.

Implicit Types (s t : list N) (c x y : N).

Lemma list_two_step_ind (P : list N -> Prop) :
  P [] -> (forall c, P [c]) ->
  (forall c x t, P t -> P (x :: t) -> P (c :: x :: t)) ->
  forall s, P s.
Proof.
  intros Hnil Hone Hstep s.
  assert (P s /\ forall c, P (c :: s)) as [H _]; [|exact H].
  induction s as [|x t [IH1 IH2]]; [by split|].
  split; [apply IH2|]. intros c. by apply Hstep.
Qed.

Lemma is_upper_toUpperCase x :
  is_lower x = true -> is_upper (toUpperCase x) = true.
Proof.
  intros [[H1 H2] _]%toUpperCase_lower. unfold is_upper.
  apply andb_true_intro. split; by apply N.leb_le.
Qed.

Lemma is_upper_bounds y : is_upper y = true -> 65 <= y <= 90.
Proof.
  unfold is_upper. intros [H1 H2]%andb_prop. split; by apply N.leb_le.
Qed.

Lemma is_upper_not_lower y : is_upper y = true -> is_lower y = false.
Proof.
  intros H%is_upper_bounds. unfold is_lower. apply andb_false_intro1.
  apply N.leb_gt. lia.
Qed.

Lemma is_upper_not_whitespace y :
  is_upper y = true -> is_whitespace y = false.
Proof.
  intros H%is_upper_bounds. unfold is_whitespace.
  rewrite (proj2 (N.leb_gt y 13)) by lia.
  rewrite (proj2 (N.leb_gt 8192 y)) by lia.
  rewrite !(proj2 (N.eqb_neq y _)) by lia.
  by rewrite andb_false_r.
Qed.

Lemma toCamelCase_head x t y :
  head (toCamelCase (x :: t)) = Some y -> y = x \/ is_upper y = true.
Proof.
  destruct t as [|x2 t]; [simpl; intros [= <-]; by left|].
  rewrite toCamelCase_cons.
  destruct ((x =? HYPHEN) && is_lower x2) eqn:E; simpl; intros [= <-].
  - right. apply is_upper_toUpperCase. by apply andb_prop in E as [_ ?].
  - by left.
Qed.

Lemma toCamelCase_cons_nonempty x t : toCamelCase (x :: t) <> [].
Proof.
  destruct t as [|x2 t]; [done|]. rewrite toCamelCase_cons.
  by destruct ((x =? HYPHEN) && is_lower x2).
Qed.

(** The result has no hyphen followed by a lower-case letter. *)
Lemma toCamelCase_no_kebab s : has_kebab (toCamelCase s) = false.
Proof.
  induction s as [|c|c x t IHt IHxt] using list_two_step_ind.
  - done.
  - simpl. by rewrite andb_false_r.
  - rewrite toCamelCase_cons.
    destruct ((c =? HYPHEN) && is_lower x) eqn:E.
    + apply andb_prop in E as [_ Hx].
      pose proof (is_upper_bounds _ (is_upper_toUpperCase x Hx)) as Hb.
      simpl. rewrite IHt.
      destruct (N.eqb_spec (toUpperCase x) HYPHEN) as [Heq|_]; [|done].
      unfold HYPHEN in Heq. lia.
    + change (has_kebab (c :: toCamelCase (x :: t)))
        with ((c =? HYPHEN)
              && match toCamelCase (x :: t) with
                 | y :: _ => is_lower y
                 | [] => false
                 end
              || has_kebab (toCamelCase (x :: t))).
      rewrite IHxt, orb_false_r.
      destruct (c =? HYPHEN); [|done].
      rewrite andb_true_l in E |- *.
      destruct (toCamelCase (x :: t)) as [|y r] eqn:Ey; [done|].
      destruct (toCamelCase_head x t y) as [->|Hy]; [by rewrite Ey|done|].
      by apply is_upper_not_lower.
Qed.

(** A string without hyphen followed by a lower-case letter is left as it
    is. *)
Lemma toCamelCase_fixed s : has_kebab s = false -> toCamelCase s = s.
Proof.
  induction s as [|c|c x t IHt IHxt] using list_two_step_ind; [done..|].
  change (has_kebab (c :: x :: t))
    with ((c =? HYPHEN) && is_lower x || has_kebab (x :: t)).
  intros [E Hk]%orb_false_elim.
  rewrite toCamelCase_cons, E. by rewrite (IHxt Hk).
Qed.

Lemma toCamelCase_elem s y :
  y ∈ toCamelCase s -> y ∈ s \/ is_upper y = true.
Proof.
  revert y.
  induction s as [|c|c x t IHt IHxt] using list_two_step_ind; intros y.
  - by left.
  - by left.
  - rewrite toCamelCase_cons.
    destruct ((c =? HYPHEN) && is_lower x) eqn:E.
    + intros [->|Hy]%elem_of_cons.
      * right. apply is_upper_toUpperCase. by apply andb_prop in E as [_ ?].
      * destruct (IHt y Hy) as [?|?]; [left|by right].
        by do 2 apply list_elem_of_further.
    + intros [->|Hy]%elem_of_cons; [left; left|].
      destruct (IHxt y Hy) as [?|?]; [left|by right].
      by apply list_elem_of_further.
Qed.

Lemma toCamelCase_starts s :
  starts_trimmed s = true -> starts_trimmed (toCamelCase s) = true.
Proof.
  destruct s as [|c [|x t]]; [done..|]. rewrite toCamelCase_cons.
  destruct ((c =? HYPHEN) && is_lower x) eqn:E; [|done].
  intros _. simpl. apply negb_true_iff, is_upper_not_whitespace.
  apply is_upper_toUpperCase. by apply andb_prop in E as [_ ?].
Qed.

Lemma ends_trimmed_last s :
  ends_trimmed s =
  match last s with Some c => negb (is_whitespace c) | None => true end.
Proof.
  unfold ends_trimmed. destruct s as [|c s _] using rev_ind; [done|].
  by rewrite rev_app_distr, last_snoc.
Qed.

Lemma last_further x (l : list N) y : last l = Some y -> last (x :: l) = Some y.
Proof. intros H. by rewrite last_cons, H. Qed.

Lemma toCamelCase_last s y :
  last (toCamelCase s) = Some y -> last s = Some y \/ is_upper y = true.
Proof.
  induction s as [|c|c x t IHt IHxt] using list_two_step_ind.
  - done.
  - by left.
  - rewrite toCamelCase_cons.
    destruct ((c =? HYPHEN) && is_lower x) eqn:E.
    + apply andb_prop in E as [_ Hx]. rewrite last_cons.
      destruct (last (toCamelCase t)) as [z|] eqn:Hlast.
      * intros [= ->]. destruct (IHt eq_refl) as [Ht|?]; [left|by right].
        by do 2 apply last_further.
      * intros [= <-]. right. by apply is_upper_toUpperCase.
    + rewrite last_cons.
      destruct (last (toCamelCase (x :: t))) as [z|] eqn:Hlast.
      * intros [= ->]. destruct (IHxt eq_refl) as [Ht|?]; [left|by right].
        by apply last_further.
      * apply last_None in Hlast. by destruct (toCamelCase_cons_nonempty x t).
Qed.

Lemma toCamelCase_ends s :
  ends_trimmed s = true -> ends_trimmed (toCamelCase s) = true.
Proof.
  rewrite !ends_trimmed_last. intros Hs.
  destruct (last (toCamelCase s)) as [y|] eqn:Hlast; [|done].
  destruct (toCamelCase_last s y Hlast) as [Hy|Hy].
  - by rewrite Hy in Hs.
  - by apply negb_true_iff, is_upper_not_whitespace.
Qed.

Lemma propertyName_trimmed (property : list N) :
  trim (propertyName (trim property)) = propertyName (trim property).
Proof.
  unfold propertyName. destruct (startsWith _ _).
  - apply trim_idempotent.
  - apply trim_fixed.
    + apply toCamelCase_starts, trim_starts.
    + apply toCamelCase_ends, trim_ends.
Qed.

End CamelCaseMore.

(** ** More on the cache *)

Section CacheMore.

Implicit Types (c : list (list N * gmap (list N) (list N))).
Implicit Types (k style : list N) (o : gmap (list N) (list N)).

Lemma Map_get_elem k o c : NoDup c.*1 -> (k, o) ∈ c -> Map_get k c = Some o.
Proof.
  induction c as [|[k' o'] c IH]; simpl.
  - by intros _ ?%elem_of_nil.
  - intros [Hk' Hnd]%NoDup_cons [[= -> ->]|Hin]%elem_of_cons.
    + by rewrite decide_True.
    + rewrite decide_False; [by apply IH|].
      intros ->. apply Hk'. apply list_elem_of_fmap. by exists (k', o).
Qed.

(** What is in the cache after a call. *)
Lemma parseStyle_total_cached style c :
  cache_ok c ->
  trim style = [] \/ trim style ∈ (parseStyle_total style c).2.*1.
Proof.
  intros Hok. rewrite (parseStyle_total_cache style c Hok).
  case_decide as Hhit; [done|]. right.
  rewrite fmap_app. apply elem_of_app. right. simpl. left.
Qed.

Lemma parseStyle_total_keys_trimmed style c :
  cache_ok c ->
  Forall (fun e => trim e.1 = e.1) c ->
  Forall (fun e => trim e.1 = e.1) (parseStyle_total style c).2.
Proof.
  intros Hok Hall. rewrite (parseStyle_total_cache style c Hok).
  case_decide; [done|]. apply Forall_app. split.
  - case_decide; [by apply Forall_tail | done].
  - repeat constructor. simpl. apply trim_idempotent.
Qed.

Lemma reachable_keys_trimmed c :
  reachable c -> Forall (fun e => trim e.1 = e.1) c.
Proof.
  induction 1 as [|c style o c' Hc IH Hcall]; [constructor|].
  rewrite parseStyle_Ok in Hcall. injection Hcall as Hcall.
  replace c' with (parseStyle_total style c).2 by by rewrite Hcall.
  by apply parseStyle_total_keys_trimmed; [apply reachable_ok|].
Qed.

End CacheMore.

(** ** Properties of [toCamelCase] and [parseStyle] beyond the claims *)

Section StyleParserMore.

Implicit Types (c : list (list N * gmap (list N) (list N))).
Implicit Types (style a b k v ws : list N).
Implicit Types (o : gmap (list N) (list N)).

Lemma has_kebab_decompose (s : list N) :
  has_kebab s = true <->
  exists (a b : list N) (x : N),
    s = a ++ HYPHEN :: x :: b /\ is_lower x = true.
Proof.
  split.
  - induction s as [|ch s IH]; [done|]. simpl.
    intros [[Hc Hx]%andb_prop | Hs]%orb_prop.
    + destruct s as [|x b]; [done|]. apply N.eqb_eq in Hc as ->.
      by exists [], b, x.
    + destruct (IH Hs) as (a & b & x & -> & Hx). by exists (ch :: a), b, x.
  - intros (a & b & x & -> & Hx). induction a as [|ch a IH]; simpl.
    + by rewrite Hx.
    + rewrite IH. apply orb_true_r.
Qed.

(** X1: [toCamelCase] is idempotent, and its result never contains a
    hyphen followed by a lower-case letter. *)
Theorem toCamelCase_idempotent (s : list N) :
  toCamelCase (toCamelCase s) = toCamelCase s /\
  forall (a b : list N) (x : N),
    toCamelCase s = a ++ HYPHEN :: x :: b -> is_lower x = false.
Proof.
  split.
  - apply toCamelCase_fixed, toCamelCase_no_kebab.
  - intros a b x Hs. destruct (is_lower x) eqn:Hx; [|done].
    assert (has_kebab (toCamelCase s) = true) as Hk
      by (apply has_kebab_decompose; by exists a, b, x).
    by rewrite toCamelCase_no_kebab in Hk.
Qed.

(** X2: the strings that [toCamelCase] leaves unchanged are exactly those
    in which no hyphen is followed by a lower-case letter. *)
Theorem toCamelCase_unchanged_iff (s : list N) :
  toCamelCase s = s <->
  forall (a b : list N) (x : N), s = a ++ HYPHEN :: x :: b -> is_lower x = false.
Proof.
  split.
  - intros Hs a b x Hdec. destruct (is_lower x) eqn:Hx; [|done].
    assert (has_kebab s = true) as Hk
      by (apply has_kebab_decompose; by exists a, b, x).
    by rewrite <- Hs, toCamelCase_no_kebab in Hk.
  - intros Hs. apply toCamelCase_fixed.
    destruct (has_kebab s) eqn:Hk; [|done].
    apply has_kebab_decompose in Hk as (a & b & x & Hdec & Hx).
    by rewrite (Hs a b x Hdec) in Hx.
Qed.

(** The object returned by a call in a reachable cache state. *)
Lemma parseStyle_reachable_inv c style o c' :
  reachable c -> parseStyle style c = Ok (o, c') ->
  o = styleOf (trim style) /\ c' = (parseStyle_total style c).2.
Proof.
  intros Hc Hcall. rewrite (parseStyle_reachable style c Hc) in Hcall.
  by injection Hcall as <- <-.
Qed.

(** X3: every entry of the object returned by [parseStyle] comes from a
    candidate declaration of the trimmed input: a piece between semicolons
    whose split at colons starts with a non-empty property piece and a
    value piece; the key is the normalized property and the value the
    trimmed value piece. *)
Theorem entries_origin c style o c' k v :
  reachable c -> parseStyle style c = Ok (o, c') -> o !! k = Some v ->
  exists (el property value : list N) (rest : list (list N)),
    el ∈ split SEMICOLON (trim style) /\
    split COLON el = property :: value :: rest /\ property <> [] /\
    k = (if startsWith (js "--") (trim property)
         then trim property else toCamelCase (trim property)) /\
    v = trim value.
Proof.
  intros Hc Hcall Hk.
  destruct (parseStyle_reachable_inv c style o c' Hc Hcall) as [-> _].
  exact (styleOf_origin _ k v Hk).
Qed.

Lemma entries_origin_witness :
  exists (el property value : list N) (rest : list (list N)),
    el ∈ split SEMICOLON (trim (js " top : 0 ")) /\
    split COLON el = property :: value :: rest /\ property <> [] /\
    js "top" = (if startsWith (js "--") (trim property)
                then trim property else toCamelCase (trim property)) /\
    js "0" = trim value.
Proof.
  apply (entries_origin [] (js " top : 0 ") {[ js "top" := js "0" ]}
           [(js "top : 0", {[ js "top" := js "0" ]})]).
  - apply reachable_init.
  - vm_compute. reflexivity.
  - vm_compute. reflexivity.
Defined.

(** X4: the keys and the values of the object returned by [parseStyle]
    carry no white space at either end. *)
Theorem entries_trimmed c style o c' k v :
  reachable c -> parseStyle style c = Ok (o, c') -> o !! k = Some v ->
  trim k = k /\ trim v = v.
Proof.
  intros Hc Hcall Hk.
  destruct (parseStyle_reachable_inv c style o c' Hc Hcall) as [-> _].
  destruct (styleOf_origin _ k v Hk)
    as (el & property & value & rest & _ & _ & _ & -> & ->).
  split; [apply propertyName_trimmed | apply trim_idempotent].
Qed.

Lemma entries_trimmed_witness :
  trim (js "top") = js "top" /\ trim (js "0") = js "0".
Proof.
  apply (entries_trimmed [] (js " top : 0 ") {[ js "top" := js "0" ]}
           [(js "top : 0", {[ js "top" := js "0" ]})]).
  - apply reachable_init.
  - vm_compute. reflexivity.
  - vm_compute. reflexivity.
Defined.

(** X5: neither a key nor a value of the object returned by [parseStyle]
    contains a colon or a semicolon. *)
Theorem entries_without_separators c style o c' k v :
  reachable c -> parseStyle style c = Ok (o, c') -> o !! k = Some v ->
  (COLON ∉ k) /\ (SEMICOLON ∉ k) /\ (COLON ∉ v) /\ (SEMICOLON ∉ v).
Proof.
  intros Hc Hcall Hk.
  destruct (parseStyle_reachable_inv c style o c' Hc Hcall) as [-> _].
  destruct (styleOf_origin _ k v Hk)
    as (el & property & value & rest & Hel & Hsplit & _ & -> & ->).
  assert (forall (p : list N) (x : N),
            p ∈ split COLON el -> x ∈ p -> x <> COLON /\ x <> SEMICOLON)
    as Hpiece.
  { intros p x Hp Hx.
    destruct (split_piece_elem COLON el p x Hp Hx) as [Hxel Hcolon].
    split; [done|]. by destruct (split_piece_elem SEMICOLON _ el x Hel Hxel). }
  assert (forall x : N, x ∈ propertyName (trim property) ->
            x <> COLON /\ x <> SEMICOLON) as Hkey.
  { intros x Hx.
    assert (x ∈ trim property \/ is_upper x = true) as [Hin|Hup].
    { unfold propertyName in Hx. destruct (startsWith _ _); [by left|].
      by apply toCamelCase_elem. }
    - apply (Hpiece property); [rewrite Hsplit; left | by apply trim_elem].
    - apply is_upper_bounds in Hup. unfold COLON, SEMICOLON. lia. }
  assert (forall x : N, x ∈ trim value -> x <> COLON /\ x <> SEMICOLON)
    as Hvalue.
  { intros x Hx. apply (Hpiece value); [|by apply trim_elem].
    rewrite Hsplit. right. left. }
  split_and!; intros Hin.
  - by destruct (Hkey _ Hin).
  - by destruct (Hkey _ Hin).
  - by destruct (Hvalue _ Hin).
  - by destruct (Hvalue _ Hin).
Qed.

Lemma entries_without_separators_witness :
  (COLON ∉ js "background") /\ (SEMICOLON ∉ js "background") /\
  (COLON ∉ js "url(http") /\ (SEMICOLON ∉ js "url(http").
Proof.
  apply (entries_without_separators []
           (js "background: url(http://x.png)")
           {[ js "background" := js "url(http" ]}
           [(js "background: url(http://x.png)",
             {[ js "background" := js "url(http" ]})]).
  - apply reachable_init.
  - vm_compute. reflexivity.
  - vm_compute. reflexivity.
Defined.

(** X6: in every reachable cache state the keys of the cache are pairwise
    distinct, non-empty and trimmed, and a call of [parseStyle] on a key
    returns the object stored with it, which is the object the parsing
    algorithm computes for the key, and leaves the cache as it is. *)
Theorem cache_entries_valid c :
  reachable c ->
  NoDup c.*1 /\
  forall k o, (k, o) ∈ c ->
    k <> [] /\ trim k = k /\
    parseStyle k c = Ok (o, c) /\ parseStyle_uncached k = Ok o.
Proof.
  intros Hc. pose proof (reachable_ok c Hc) as (Hnd & Hlen & Hall).
  pose proof (reachable_keys_trimmed c Hc) as Htrim.
  split; [done|]. intros k o Hin.
  rewrite Forall_forall in Hall, Htrim.
  destruct (Hall _ Hin) as [Hne Ho]. pose proof (Htrim _ Hin) as Hk.
  simpl in Hne, Ho, Hk. split_and!; [done..| |].
  - rewrite parseStyle_Ok. unfold parseStyle_total. rewrite Hk.
    rewrite (Map_get_elem k o c Hnd Hin). by destruct k.
  - by rewrite parseStyle_uncached_total, Hk, Ho.
Qed.

Lemma cache_entries_valid_witness :
  let c := calls_total [js " a:1 "; js "b:2"; js "a:1"] [] in
  reachable c /\ (js "a:1", {[ js "a" := js "1" ]}) ∈ c /\
  parseStyle (js "a:1") c = Ok ({[ js "a" := js "1" ]}, c).
Proof.
  intros c.
  assert (reachable c) as Hc by apply reachable_calls_total, reachable_init.
  assert ((js "a:1", {[ js "a" := js "1" ]}) ∈ c) as Hin
    by (vm_compute; left).
  split_and!; [exact Hc | exact Hin |].
  destruct (cache_entries_valid c Hc) as [_ Hvalid].
  by destruct (Hvalid _ _ Hin) as (_ & _ & Hcall & _).
Defined.

(** X7: after a call on an input that is not blank, the cache holds the
    object returned under the trimmed input, and a call repeated at once,
    with the same input or with one that differs from it by surrounding
    white space only, is a cache hit: it returns the stored object and
    leaves the cache as the first call left it. *)
Theorem parseStyle_repeated c style style' o c' :
  reachable c -> parseStyle style c = Ok (o, c') ->
  trim style <> [] -> trim style' = trim style ->
  Map_get (trim style') c' = Some o /\
  parseStyle style' c' = Ok (o, c').
Proof.
  intros Hc Hcall Hne Heq.
  assert (reachable c') as Hc' by by eapply reachable_call.
  pose proof (reachable_ok c' Hc') as (Hnd & _ & Hall).
  destruct (parseStyle_reachable_inv c style o c' Hc Hcall) as [-> Hcache].
  assert (trim style ∈ c'.*1) as Hin.
  { rewrite Hcache.
    by destruct (parseStyle_total_cached style c (reachable_ok c Hc)). }
  assert (Map_get (trim style) c' = Some (styleOf (trim style))) as Hget.
  { apply list_elem_of_fmap in Hin as ([k o] & Hk & He). simpl in Hk.
    subst k. rewrite Forall_forall in Hall.
    destruct (Hall _ He) as [_ Ho]. simpl in Ho. subst o.
    by apply Map_get_elem. }
  rewrite Heq. split; [exact Hget|].
  rewrite parseStyle_Ok. unfold parseStyle_total. rewrite Heq, Hget.
  by destruct (trim style).
Qed.

Lemma parseStyle_repeated_witness :
  trim (js " a:1 ") <> [] /\
  trim (js "a:1  ") = trim (js " a:1 ") /\
  Map_get (trim (js "a:1  ")) [(js "a:1", {[ js "a" := js "1" ]})]
  = Some {[ js "a" := js "1" ]} /\
  parseStyle (js "a:1  ") [(js "a:1", {[ js "a" := js "1" ]})] =
  Ok ({[ js "a" := js "1" ]}, [(js "a:1", {[ js "a" := js "1" ]})]).
Proof.
  assert (trim (js " a:1 ") <> []) as Hne by (vm_compute; discriminate).
  assert (trim (js "a:1  ") = trim (js " a:1 ")) as Heq
    by (vm_compute; reflexivity).
  split_and!; [exact Hne | exact Heq | |];
    apply (parseStyle_repeated [] (js " a:1 ") (js "a:1  ")
             {[ js "a" := js "1" ]} [(js "a:1", {[ js "a" := js "1" ]})]);
    first [apply reachable_init | exact Hne | exact Heq
          | vm_compute; reflexivity].
Defined.

(** X8: empty candidates make no difference: a semicolon at the end of
    the input, or a doubled semicolon inside it, does not change the
    object returned. *)
Theorem parseStyle_redundant_semicolon c1 c2 style a b :
  reachable c1 -> reachable c2 ->
  (exists o c1' c2',
     parseStyle (style ++ [SEMICOLON]) c1 = Ok (o, c1') /\
     parseStyle style c2 = Ok (o, c2')) /\
  (exists o c1' c2',
     parseStyle (a ++ SEMICOLON :: SEMICOLON :: b) c1 = Ok (o, c1') /\
     parseStyle (a ++ SEMICOLON :: b) c2 = Ok (o, c2')).
Proof.
  intros H1 H2.
  rewrite !(parseStyle_reachable _ c1 H1), !(parseStyle_reachable _ c2 H2).
  split; eexists _, _, _; (split; [|done]); do 2 f_equal.
  - rewrite (trim_app_stop style SEMICOLON []) by done.
    rewrite styleOf_app, styleOf_trimStart.
    apply (left_id_L ∅ (∪)).
  - rewrite (trim_app_stop a SEMICOLON (SEMICOLON :: b)) by done.
    rewrite (trim_app_stop a SEMICOLON b) by done.
    replace (trimEnd (SEMICOLON :: b)) with (SEMICOLON :: trimEnd b)
      by (symmetry; exact (trimEnd_app_stop [] SEMICOLON b eq_refl)).
    rewrite !styleOf_app.
    replace (styleOf (SEMICOLON :: trimEnd b))
      with (styleOf (trimEnd b) ∪ styleOf [])
      by (symmetry; exact (styleOf_app [] (trimEnd b))).
    replace (styleOf []) with (∅ : gmap (list N) (list N)) by done.
    by rewrite (right_id_L ∅ (∪)).
Qed.

Lemma parseStyle_redundant_semicolon_witness :
  (exists o c1' c2',
     parseStyle (js "a:1; b:2" ++ [SEMICOLON]) [] = Ok (o, c1') /\
     parseStyle (js "a:1; b:2") [] = Ok (o, c2')) /\
  (exists o c1' c2',
     parseStyle (js "a:1" ++ SEMICOLON :: SEMICOLON :: js "b:2") []
       = Ok (o, c1') /\
     parseStyle (js "a:1" ++ SEMICOLON :: js "b:2") [] = Ok (o, c2')).
Proof.
  exact (parseStyle_redundant_semicolon [] [] (js "a:1; b:2")
           (js "a:1") (js "b:2") reachable_init reachable_init).
Defined.

(** X9: parsing two inputs joined by a semicolon merges their objects,
    with the entries of the second input taking precedence, provided the
    second input does not start with white space. *)
Theorem parseStyle_joined ca cb c a b :
  reachable ca -> reachable cb -> reachable c -> trimStart b = b ->
  exists oa ob o ca' cb' c',
    parseStyle a ca = Ok (oa, ca') /\
    parseStyle b cb = Ok (ob, cb') /\
    parseStyle (a ++ SEMICOLON :: b) c = Ok (o, c') /\
    o = ob ∪ oa /\
    forall k, o !! k = match ob !! k with
                       | Some v => Some v
                       | None => oa !! k
                       end.
Proof.
  intros Ha Hb Hc Hstart.
  rewrite (parseStyle_reachable _ ca Ha), (parseStyle_reachable _ cb Hb),
    (parseStyle_reachable _ c Hc).
  eexists _, _, _, _, _, _. split_and!; [done..| |].
  - rewrite (trim_app_stop a SEMICOLON b) by done.
    rewrite styleOf_app, styleOf_trimStart.
    by replace (trimEnd b) with (trim b) by (unfold trim; by rewrite Hstart).
  - intros k. rewrite (trim_app_stop a SEMICOLON b) by done.
    rewrite styleOf_app, styleOf_trimStart.
    replace (trimEnd b) with (trim b) by (unfold trim; by rewrite Hstart).
    rewrite lookup_union. by destruct (styleOf (trim b) !! k), (styleOf (trim a) !! k).
Qed.

Lemma parseStyle_joined_witness :
  trimStart (js "b:3; c:4") = js "b:3; c:4" /\
  exists oa ob o ca' cb' c',
    parseStyle (js "a:1; b:2") [] = Ok (oa, ca') /\
    parseStyle (js "b:3; c:4") [] = Ok (ob, cb') /\
    parseStyle (js "a:1; b:2" ++ SEMICOLON :: js "b:3; c:4") [] = Ok (o, c') /\
    o = ob ∪ oa /\
    forall k, o !! k = match ob !! k with
                       | Some v => Some v
                       | None => oa !! k
                       end.
Proof.
  assert (trimStart (js "b:3; c:4") = js "b:3; c:4") as H
    by (vm_compute; reflexivity).
  split; [exact H|].
  exact (parseStyle_joined [] [] [] (js "a:1; b:2") (js "b:3; c:4")
           reachable_init reachable_init reachable_init H).
Defined.

(** X10: the test for a missing property precedes the trimming, so the
    last declaration of an input, when it follows a semicolon and its
    property part is white space only, is not skipped: its trimmed value
    is stored under the empty name. *)
Theorem blank_property_stored_under_empty_name c a ws v :
  reachable c -> ws <> [] -> forallb is_whitespace ws = true ->
  COLON ∉ v -> SEMICOLON ∉ v ->
  exists o c',
    parseStyle (a ++ SEMICOLON :: ws ++ COLON :: v) c = Ok (o, c') /\
    o !! [] = Some (trim v).
Proof.
  intros Hc Hne Hws Hcolon Hsemi.
  rewrite (parseStyle_reachable _ c Hc). eexists _, _. split; [done|].
  rewrite (trim_app_stop a SEMICOLON) by done.
  rewrite (trimEnd_app_stop ws COLON v) by done.
  rewrite styleOf_app. apply lookup_union_Some_l.
  assert ((COLON ∉ trimEnd v) /\ (SEMICOLON ∉ trimEnd v))
    as [Hcolon' Hsemi'].
  { destruct (trimEnd_split v) as (ws' & Hv & _).
    rewrite Hv in Hcolon, Hsemi.
    apply not_elem_of_app in Hcolon as [? _].
    by apply not_elem_of_app in Hsemi as [? _]. }
  unfold styleOf. rewrite split_no_sep.
  2:{ rewrite not_elem_of_app, not_elem_of_cons.
      split_and!; [by apply blank_not_elem | done | done]. }
  simpl. erewrite declaration_pieces; [| |exact Hne].
  2:{ rewrite split_app_sep by by apply blank_not_elem.
      by rewrite (split_no_sep COLON (trimEnd v)). }
  simpl. rewrite (trim_blank ws Hws), trim_trimEnd.
  unfold assign. simpl. by rewrite obj_set_lookup.
Qed.

Lemma blank_property_stored_under_empty_name_witness :
  exists o c',
    parseStyle (js "a:b" ++ SEMICOLON :: js " " ++ COLON :: js " c ") []
      = Ok (o, c') /\
    o !! [] = Some (trim (js " c ")).
Proof.
  apply blank_property_stored_under_empty_name.
  - apply reachable_init.
  - vm_compute. discriminate.
  - vm_compute. reflexivity.
  - apply (bool_decide_unpack _). vm_compute. exact I.
  - apply (bool_decide_unpack _). vm_compute. exact I.
Defined.

(** X11: the object returned by [parseStyle] never has an entry named
    [__proto__]: the assignment of a string to that name on a plain object
    creates no own property. *)
Theorem no_proto_entry c style o c' :
  reachable c -> parseStyle style c = Ok (o, c') -> o !! PROTO = None.
Proof.
  intros Hc Hcall.
  destruct (parseStyle_reachable_inv c style o c' Hc Hcall) as [-> _].
  unfold styleOf. by rewrite foldl_assign_proto.
Qed.

Lemma no_proto_entry_witness :
  ({[ js "a" := js "1" ]} : gmap (list N) (list N)) !! PROTO = None.
Proof.
  apply (no_proto_entry [] (js "__proto__: x; a: 1") _
           [(js "__proto__: x; a: 1", {[ js "a" := js "1" ]})]).
  - apply reachable_init.
  - vm_compute. reflexivity.
Defined.

(** X12: a call never removes more than it adds: the cache does not
    shrink, grows by at most one entry, and a full cache stays full. *)
Theorem cache_size_step c style o c' :
  reachable c -> parseStyle style c = Ok (o, c') ->
  (length c <= length c' <= length c + 1)%nat /\
  (length c = MAX_STYLE_CACHE_ENTRIES -> length c' = MAX_STYLE_CACHE_ENTRIES).
Proof.
  intros Hc Hcall.
  destruct (parseStyle_reachable_inv c style o c' Hc Hcall) as [_ ->].
  pose proof (reachable_ok c Hc) as Hok.
  rewrite (parseStyle_total_cache style c Hok).
  destruct Hok as (_ & Hlen & _).
  case_decide; [lia|]. rewrite length_app. simpl.
  case_decide as Hfull; [|lia].
  destruct c as [|e c]; simpl in *; [|lia].
  unfold MAX_STYLE_CACHE_ENTRIES in Hfull. lia.
Qed.

Lemma cache_size_step_witness :
  (length ([] : list (list N * gmap (list N) (list N)))
   <= length [(js "a:1", ({[ js "a" := js "1" ]} : gmap (list N) (list N)))]
   <= length ([] : list (list N * gmap (list N) (list N))) + 1)%nat.
Proof.
  apply (cache_size_step [] (js "a:1") {[ js "a" := js "1" ]}
           [(js "a:1", {[ js "a" := js "1" ]})]).
  - apply reachable_init.
  - vm_compute. reflexivity.
Defined.

(** X13: an input without any colon yields the empty object. *)
Theorem parseStyle_without_colon c style :
  reachable c -> COLON ∉ style ->
  exists c', parseStyle style c = Ok (∅, c').
Proof.
  intros Hc Hcolon. rewrite (parseStyle_reachable _ c Hc).
  eexists. do 2 f_equal. unfold styleOf.
  replace (omap declaration (split SEMICOLON (trim style))) with
    ([] : list (list N * list N)); [done|].
  symmetry. apply omap_declaration_nil. intros el Hel.
  apply declaration_no_colon. intros Hin.
  destruct (split_piece_elem SEMICOLON _ el COLON Hel Hin) as [Htrim _].
  by apply Hcolon, trim_elem.
Qed.

Lemma parseStyle_without_colon_witness :
  exists c', parseStyle (js "color red; top") [] = Ok (∅, c').
Proof.
  apply parseStyle_without_colon.
  - apply reachable_init.
  - apply (bool_decide_unpack _). vm_compute. exact I.
Defined.

(** Remark: when two inputs are joined, the condition that the second
    one does not start with white space cannot be dropped. *)
Lemma joined_second_input_with_blank_property :
  parseStyle_uncached (js " :x") = Ok ∅ /\
  parseStyle_uncached (js "a:1" ++ SEMICOLON :: js " :x")
  = Ok {[ js "a" := js "1"; [] := js "x" ]}.
Proof. split; vm_compute; reflexivity. Qed.

End StyleParserMore.

(** ** The last declaration of a name *)

Section LastDeclaration.

Implicit Types (c : list (list N * gmap (list N) (list N))).
Implicit Types (style el k v : list N).

Lemma styleOf_last_declaration (n : list N) (pre post : list (list N)) el k v :
  split SEMICOLON n = pre ++ el :: post ->
  declaration el = Some (k, v) ->
  (forall el' d, el' ∈ post -> declaration el' = Some d -> d.1 <> k) ->
  k <> PROTO ->
  styleOf n !! k = Some v.
Proof.
  intros Hsplit Hel Hpost Hk. unfold styleOf.
  rewrite Hsplit, omap_app. simpl. rewrite Hel, foldl_app. simpl.
  rewrite foldl_assign_lookup_ne.
  - unfold assign. simpl. by apply obj_set_lookup.
  - intros d (el' & Hin & Hd)%list_elem_of_omap. by apply (Hpost el' d).
Qed.

(** X15: a declaration with a non-empty property part whose value part is
    empty or white space only is kept: when no later declaration of the
    input produces its name, and the name is not [__proto__], the object
    returned maps the name to the empty string. *)
Theorem empty_value_retained c style (pre post : list (list N)) el
    (property value : list N) (rest : list (list N)) :
  reachable c ->
  split SEMICOLON (trim style) = pre ++ el :: post ->
  split COLON el = property :: value :: rest ->
  property <> [] -> forallb is_whitespace value = true ->
  propertyName (trim property) <> PROTO ->
  (forall el' d, el' ∈ post -> declaration el' = Some d ->
                 d.1 <> propertyName (trim property)) ->
  exists o c',
    parseStyle style c = Ok (o, c') /\
    o !! propertyName (trim property) = Some [].
Proof.
  intros Hc Hsplit Hel Hne Hblank Hproto Hpost.
  rewrite (parseStyle_reachable style c Hc). eexists _, _. split; [done|].
  apply (styleOf_last_declaration _ pre post el); [done| |done..].
  rewrite (declaration_pieces el property value rest Hel Hne).
  by rewrite (trim_blank value Hblank).
Qed.

Lemma empty_value_retained_witness :
  split SEMICOLON (trim (js "top: 0; color:   ; left: 1"))
  = [js "top: 0"] ++ js " color:   " :: [js " left: 1"] /\
  split COLON (js " color:   ") = [js " color"; js "   "] /\
  forallb is_whitespace (js "   ") = true /\
  propertyName (trim (js " color")) = js "color" /\
  exists o c',
    parseStyle (js "top: 0; color:   ; left: 1") [] = Ok (o, c') /\
    o !! propertyName (trim (js " color")) = Some [].
Proof.
  assert (split SEMICOLON (trim (js "top: 0; color:   ; left: 1"))
          = [js "top: 0"] ++ js " color:   " :: [js " left: 1"]) as H1
    by (vm_compute; reflexivity).
  assert (split COLON (js " color:   ") = [js " color"; js "   "]) as H2
    by (vm_compute; reflexivity).
  assert (forallb is_whitespace (js "   ") = true) as H3
    by (vm_compute; reflexivity).
  split_and!; [exact H1 | exact H2 | exact H3 | vm_compute; reflexivity |].
  apply (empty_value_retained [] _ _ _ _ _ _ _ reachable_init H1 H2).
  - vm_compute. discriminate.
  - exact H3.
  - vm_compute. discriminate.
  - intros el' d Hin%list_elem_of_singleton Hd. subst el'.
    vm_compute in Hd. injection Hd as <-. vm_compute. discriminate.
Defined.

End LastDeclaration.
